(** * pyband: closed chord voicings near an anchor pitch

    A shallow embedding of [src/pyband/chords.py] and the properties its
    specification states about it.

    The module computes, for a chord quality, a root and an anchor pitch, the
    closed voicing whose inversion lies closest to the anchor.  It is written
    on top of the music21 library (pitches, intervals, chords) and Python's
    [heapq]; both are collaborators of the repository and are modelled in
    [Music21] and [Heapq] below at the level the repository uses them. *)

From Stdlib Require Import ZArith QArith Qabs List String Ascii Bool Lia Permutation Sorted.
From Equations Require Import Equations.
Import ListNotations.

Local Open Scope Z_scope.

(** ** Exceptions and results

    A Python call returns a value, raises, or runs on.  [Result A] is the
    outcome of a call.  A loop that is not known to end is run for a number
    of turns its caller allows (the fuel), and [Unfinished] is the outcome of
    a call whose loop has not ended within them: a call that is [Unfinished]
    for every fuel never returns.  [x <- c ;; k] runs [k] on the value of
    [c] and lets any other outcome of [c] pass through. *)

Inductive Exception : Type :=
| ValueError (msg : string)
| ZeroDivisionError
| IndexError
| PitchException
| IntervalException.

Inductive Result (A : Type) : Type :=
| Ok (value : A)
| Raise (e : Exception)
| Unfinished.

Arguments Ok {A} value.
Arguments Raise {A} e.
Arguments Unfinished {A}.

Definition bind {A B : Type} (c : Result A) (k : A -> Result B) : Result B :=
  match c with
  | Ok a => k a
  | Raise e => Raise e
  | Unfinished => Unfinished
  end.

Notation "x <- c ;; k" := (bind c (fun x => k))
  (at level 61, c at next level, right associativity).

(** [[f(x) for x in xs]] where [f] may raise: the first exception ends the
    comprehension. *)
Fixpoint comprehension {A B : Type} (f : A -> Result B) (xs : list A) : Result (list B) :=
  match xs with
  | [] => Ok []
  | x :: rest =>
      y <- f x ;;
      ys <- comprehension f rest ;;
      Ok (y :: ys)
  end.

(** Python's true division [a / n] of an integer by a length.  Python
    returns the float nearest to the quotient; the model keeps the quotient
    itself, a rational.  The repository only compares such a value: with
    [12.0], with [0], and with the quotient of another sum by the same
    length.  Rounding to the nearest float keeps the order of the values
    compared (the sums are sums of MIDI numbers, and a chord has far fewer
    than 2^45 pitches), so the comparisons of the model are those of the
    code.  Arithmetic on the quotients is another matter: the float of a sum
    is not the sum of the floats, and the statements below compare quotients
    and never add or subtract them. *)
Definition true_div (a : Z) (n : nat) : Result Q :=
  match n with
  | O => Raise ZeroDivisionError
  | S _ => Ok (a # Pos.of_nat n)
  end.

Definition sum (l : list Z) : Z := fold_right Z.add 0 l.

(** ** The music21 collaborator

    The repository imports [Pitch], [Interval] and [Chord] from music21.  The
    library is not part of the repository; this module models the part of it
    [chords.py] calls, following the library's documented behaviour: a pitch
    with an integer pitch-space value, the MIDI number read off it and a
    spelling, transposed by a number of semitones or by a named interval, and
    a chord built from an ordered collection of pitches, with transposition,
    ascending sort, closed position and the insertion of a pitch. *)

Module Music21.

(** A pitch: its staff position ([diatonicNoteNum], 29 for C4, one per letter
    name) and its pitch-space value ([ps], 60 for C4, one per semitone, without
    bounds).  Together they determine the letter, the accidental and the
    octave, that is, [nameWithOctave]. *)
Record Pitch : Type := mkPitch {
  diatonicNoteNum : Z;
  ps : Z
}.

(** [pitch.midi]: the pitch-space value as a MIDI number.  music21 keeps the
    number within 0..127: a value above 127 is read in the highest octave
    that holds its pitch class (115 to 126), a value below 0 in the lowest
    (0 to 11).  Transposing a pitch by an octave therefore need not change
    the number read. *)
Definition midi (p : Pitch) : Z :=
  let roundedPS := ps p in
  if 127 <? roundedPS then
    let value := 12 * 9 + roundedPS mod 12 in
    if value <? 127 - 12 then value + 12 else value
  else if roundedPS <? 0 then 0 + roundedPS mod 12
  else roundedPS.

Definition Pitch_eqb (p q : Pitch) : bool :=
  (diatonicNoteNum p =? diatonicNoteNum q) && (ps p =? ps q).

(** [Pitch.__lt__]: pitches are ordered by their pitch-space value. *)
Definition Pitch_ltb (p q : Pitch) : bool := ps p <? ps q.

(** The letter of a pitch name: its place in the scale of C (1 to 7) and its
    pitch class. *)
Definition step_of_ascii (c : ascii) : option (Z * Z) :=
  if      (c =? "C")%char || (c =? "c")%char then Some (1, 0)
  else if (c =? "D")%char || (c =? "d")%char then Some (2, 2)
  else if (c =? "E")%char || (c =? "e")%char then Some (3, 4)
  else if (c =? "F")%char || (c =? "f")%char then Some (4, 5)
  else if (c =? "G")%char || (c =? "g")%char then Some (5, 7)
  else if (c =? "A")%char || (c =? "a")%char then Some (6, 9)
  else if (c =? "B")%char || (c =? "b")%char then Some (7, 11)
  else None.

(** Leading occurrences of one accidental sign, counted. *)
Fixpoint count_sign (sign : ascii) (s : string) : Z * string :=
  match s with
  | String c rest =>
      if (c =? sign)%char
      then let '(n, rest') := count_sign sign rest in (n + 1, rest')
      else (0, s)
  | EmptyString => (0, s)
  end.

Definition digit_of_ascii (c : ascii) : option Z :=
  let n := Z.of_nat (nat_of_ascii c) in
  if (48 <=? n) && (n <=? 57) then Some (n - 48) else None.

Fixpoint parse_octave (s : string) (acc : Z) : option Z :=
  match s with
  | EmptyString => Some acc
  | String c rest =>
      match digit_of_ascii c with
      | Some d => parse_octave rest (10 * acc + d)
      | None => None
      end
  end.

(** [Pitch(name)] for names as the repository passes them (lines 315 to
    317): a letter, then up to four sharps ([#]) or up to four flats ([-]),
    then the octave number.  music21 reads more names than these, among them
    names without an octave number, for pitches that have no octave of their
    own and that a transposition leaves without one.  The model has no such
    pitches: [Pitch_of_string] gives a pitch for the names described and
    none for any other, and the statements below are about calls whose names
    it reads. *)
Definition Pitch_of_string (name : string) : Result Pitch :=
  match name with
  | EmptyString => Raise PitchException
  | String c rest =>
      match step_of_ascii c with
      | None => Raise PitchException
      | Some (step, pc) =>
          let '(sharps, rest1) := count_sign "#" rest in
          let '(flats, rest2) := if sharps =? 0 then count_sign "-" rest1 else (0, rest1) in
          let octave :=
            match rest2 with
            | EmptyString => None
            | _ => if (sharps <=? 4) && (flats <=? 4) then parse_octave rest2 0 else None
            end in
          match octave with
          | None => Raise PitchException
          | Some o =>
              Ok {| diatonicNoteNum := step + 7 * o;
                    ps := 12 * (o + 1) + pc + sharps - flats |}
          end
      end
  end.

(** The interval names the chord qualities use, each with its number of staff
    steps and of semitones. *)
Definition interval_table : list (string * (Z * Z)) :=
  [ ("M2", (1, 2)); ("m3", (2, 3)); ("M3", (2, 4)); ("P4", (3, 5));
    ("d5", (4, 6)); ("P5", (4, 7)); ("A5", (4, 8));
    ("M6", (5, 9)); ("dd7", (6, 8)); ("m7", (6, 10)); ("M7", (6, 11));
    ("m9", (8, 13)); ("M9", (8, 14)); ("A9", (8, 15));
    ("P11", (10, 17)); ("A11", (10, 18));
    ("m13", (12, 20)); ("M13", (12, 21)) ]%string.

Fixpoint lookup_interval (name : string) (table : list (string * (Z * Z))) : option (Z * Z) :=
  match table with
  | [] => None
  | (n, v) :: rest => if String.eqb name n then Some v else lookup_interval name rest
  end.

(** [pitch.transpose(name)] for an interval name. *)
Definition Pitch_transpose_interval (name : string) (p : Pitch) : Result Pitch :=
  match lookup_interval name interval_table with
  | Some (steps, semitones) =>
      Ok {| diatonicNoteNum := diatonicNoteNum p + steps;
            ps := ps p + semitones |}
  | None => Raise IntervalException
  end.

(** [pitch.transpose(n)] for a number of semitones.  The repository passes
    [12] and [-12] only: an octave, which keeps the letter name and moves the
    staff position by seven. *)
Definition Pitch_transpose (semitones : Z) (p : Pitch) : Pitch :=
  {| diatonicNoteNum := diatonicNoteNum p + 7 * (semitones / 12);
     ps := ps p + semitones |}.

(** A chord is its pitches, in order; [len(chord)] is their number. *)
Definition Chord : Type := list Pitch.

Definition len (chord : Chord) : nat := List.length chord.

(** [chord.transpose(n)]: a new chord, every pitch transposed. *)
Definition Chord_transpose (semitones : Z) (chord : Chord) : Chord :=
  map (Pitch_transpose semitones) chord.

(** The sort key of [sortDiatonicAscending]: staff position, then pitch. *)
Definition diatonic_leb (p q : Pitch) : bool :=
  (diatonicNoteNum p <? diatonicNoteNum q)
  || ((diatonicNoteNum p =? diatonicNoteNum q) && (ps p <=? ps q)).

Fixpoint insert_sorted (p : Pitch) (sorted : list Pitch) : list Pitch :=
  match sorted with
  | [] => [p]
  | q :: rest => if diatonic_leb p q then p :: sorted else q :: insert_sorted p rest
  end.

(** [chord.sortDiatonicAscending()]. *)
Definition sortDiatonicAscending (chord : Chord) : Chord :=
  fold_right insert_sorted [] chord.

(** [interval.getWrittenLowerNote]: the lower on the staff, the lower in
    pitch when both share a staff position, the first on a tie. *)
Definition getWrittenLowerNote (p q : Pitch) : Pitch :=
  if diatonicNoteNum p <? diatonicNoteNum q then p
  else if diatonicNoteNum q <? diatonicNoteNum p then q
  else if ps q <? ps p then q else p.

(** [chord.bass()]; [None] for a chord without pitches. *)
Definition bass (chord : Chord) : option Pitch :=
  match chord with
  | [] => None
  | p :: rest => Some (fold_left getWrittenLowerNote rest p)
  end.

(** What [closedPosition] does to one pitch: octaves are taken off while the
    pitch lies more than an octave of staff positions above the bass. *)
Definition lower_to_bass (pBass p : Pitch) : Pitch :=
  let d := diatonicNoteNum p - diatonicNoteNum pBass in
  if d <=? 7 then p
  else let octaves := (d - 1) / 7 in
       {| diatonicNoteNum := diatonicNoteNum p - 7 * octaves;
          ps := ps p - 12 * octaves |}.

(** [removeRedundantPitches]: of several pitches with one [nameWithOctave]
    the first stays. *)
Fixpoint removeRedundantPitches (seen : list Pitch) (pitches : list Pitch) : list Pitch :=
  match pitches with
  | [] => []
  | p :: rest =>
      if existsb (Pitch_eqb p) seen
      then removeRedundantPitches seen rest
      else p :: removeRedundantPitches (p :: seen) rest
  end.

(** [chord.closedPosition()]: every pitch is brought down by octaves to
    within an octave above the bass, pitches that then coincide are kept
    once, and the chord is sorted. *)
Definition closedPosition (chord : Chord) : Chord :=
  match bass chord with
  | None => []
  | Some pBass =>
      sortDiatonicAscending
        (removeRedundantPitches [] (map (lower_to_bass pBass) chord))
  end.

(** [chord.add(pitch, runSort=True)]. *)
Definition Chord_add (p : Pitch) (chord : Chord) : Chord :=
  sortDiatonicAscending (chord ++ [p]).

End Music21.

Import Music21.

(** ** The heapq collaborator

    [chords.py] keeps its candidate tones in a [heapq] heap of
    [(weight, pitch)] tuples.  The model holds the items of the heap in a
    list and gives the two calls their contract: [heappush] adds an item,
    [heappop] takes out the least one under Python's order on tuples.  How
    [heapq] arranges the list does not matter to the repository, which sorts
    the pitches that remain before it uses them. *)

Module Heapq.

Definition item : Type := (Z * Pitch)%type.

(** [a < b] on two tuples: the first places where they differ ([!=]) are
    compared with [<]; tuples equal throughout are not less. *)
Definition item_ltb (a b : item) : bool :=
  if negb (fst a =? fst b) then fst a <? fst b
  else if negb (Pitch_eqb (snd a) (snd b)) then Pitch_ltb (snd a) (snd b)
  else false.

Definition item_eqb (a b : item) : bool :=
  (fst a =? fst b) && Pitch_eqb (snd a) (snd b).

Definition heappush (heap : list item) (x : item) : list item := heap ++ [x].

(** The least item of [x :: rest], the earliest of them when several are. *)
Fixpoint least (x : item) (rest : list item) : item :=
  match rest with
  | [] => x
  | y :: rest' => least (if item_ltb y x then y else x) rest'
  end.

Fixpoint remove_first (x : item) (heap : list item) : list item :=
  match heap with
  | [] => []
  | y :: rest => if item_eqb x y then rest else y :: remove_first x rest
  end.

(** [heappop(heap)]: the least item and the heap without it; popping from an
    empty heap is an [IndexError]. *)
Definition heappop (heap : list item) : Result (item * list item) :=
  match heap with
  | [] => Raise IndexError
  | x :: rest => let m := least x rest in Ok (m, remove_first m heap)
  end.

End Heapq.

Import Heapq.

(** ** Chord qualities ([chords.py], lines 32 to 115) *)

Module ThirdQuality.
Inductive t : Type := MAJOR | MINOR | SUS4 | SUS2.

Definition interval (self : t) : string :=
  match self with
  | MAJOR => "M3"
  | MINOR => "m3"
  | SUS4 => "P4"
  | SUS2 => "M2"
  end.
End ThirdQuality.

Module FifthQuality.
Inductive t : Type := PERFECT | DIMINISHED | AUGMENTED.

Definition interval (self : t) : string :=
  match self with
  | PERFECT => "P5"
  | DIMINISHED => "d5"
  | AUGMENTED => "A5"
  end.
End FifthQuality.

Module UpperQuality.
Inductive t : Type := SIXTH | DOMINANT_SEVENTH | MAJOR_SEVENTH | DIMINISHED_SEVENTH.

(** [MINOR_SEVENTH] has the value of [DOMINANT_SEVENTH], so the enumeration
    makes it another name of that member. *)
Definition MINOR_SEVENTH : t := DOMINANT_SEVENTH.

Definition interval (self : t) : string :=
  match self with
  | SIXTH => "M6"
  | DOMINANT_SEVENTH => "m7"
  | MAJOR_SEVENTH => "M7"
  | DIMINISHED_SEVENTH => "dd7"
  end.
End UpperQuality.

Module Harmony.
Inductive t : Type :=
| MINOR_NINTH | SHARP_NINTH | MAJOR_NINTH | SHARP_ELEVENTH | ELEVENTH
| MINOR_THIRTEENTH | MAJOR_THIRTEENTH.

Definition interval (self : t) : string :=
  match self with
  | MINOR_THIRTEENTH => "m13"
  | MAJOR_THIRTEENTH => "M13"
  | MINOR_NINTH => "m9"
  | MAJOR_NINTH => "M9"
  | SHARP_NINTH => "A9"
  | ELEVENTH => "P11"
  | SHARP_ELEVENTH => "A11"
  end.

Definition eq_dec (a b : t) : {a = b} + {a <> b}.
Proof. decide equality. Defined.
End Harmony.

(** ** Distances between a chord and a pitch (lines 118 to 133) *)

Definition pitch_center (chord : Chord) : Result Q :=
  true_div (sum (map midi chord)) (len chord).

(** The mean absolute deviation of the chord's MIDI notes from the pitch. *)
Definition chord_mad (chord : Chord) (pitch : Pitch) : Result Q :=
  true_div (sum (map (fun p => Z.abs (midi p - midi pitch)) chord)) (len chord).

Definition chord_mean_distance (chord : Chord) (pitch : Pitch) : Result Q :=
  true_div (sum (map (fun p => midi p - midi pitch) chord)) (len chord).

(** ** Octave normalization (lines 136 to 155) *)

(** The sum [move_chord] divides by the length of the chord. *)
Definition total_distance (chord : Chord) (pitch : Pitch) : Z :=
  sum (map (fun p => midi p - midi pitch) chord).

(** What is left of the way down, and of the way up: how far the pitches of
    a chord lie above 0, and how far below 116. *)
Definition down_weight (chord : Chord) : Z := sum (map (fun p => Z.max 0 (ps p)) chord).

Definition up_weight (chord : Chord) : Z := sum (map (fun p => Z.max 0 (116 - ps p)) chord).

(** The loop of [move_chord] ends.  While a chord lies more than an octave
    above the pitch, one of its pitches lies above 0, and every turn lowers
    the pitches; while it lies more than an octave below, one of its pitches
    lies below 116, and every turn raises them; and a turn never takes the
    chord from one side to the other. *)
Definition move_chord_measure (chord : Chord) (pitch : Pitch) : nat :=
  let t := total_distance chord pitch in
  let n := Z.of_nat (len chord) in
  if 12 * n <? t then S (Z.to_nat (down_weight chord))
  else if t <? - (12 * n) then S (Z.to_nat (up_weight chord))
  else O.

(** The number music21 reads: within 0..127, and the pitch-space value itself
    there. *)
Lemma midi_spec (p : Pitch) :
  exists q r : Z,
    ps p = 12 * q + r /\ 0 <= r < 12
    /\ ((127 < ps p /\ r < 7 /\ midi p = 120 + r)
        \/ (127 < ps p /\ 7 <= r /\ midi p = 108 + r)
        \/ (ps p < 0 /\ midi p = r)
        \/ (0 <= ps p <= 127 /\ midi p = ps p)).
Proof.
  exists (ps p / 12), (ps p mod 12).
  pose proof (Z.div_mod (ps p) 12 ltac:(lia)) as Hdiv.
  pose proof (Z.mod_pos_bound (ps p) 12 ltac:(lia)) as Hmod.
  split; [exact Hdiv|]. split; [exact Hmod|].
  unfold midi. cbn zeta.
  destruct (Z.ltb_spec 127 (ps p)) as [Hhigh | Hnot].
  - destruct (Z.ltb_spec (12 * 9 + ps p mod 12) (127 - 12)); [left | right; left]; lia.
  - destruct (Z.ltb_spec (ps p) 0); [right; right; left | right; right; right]; lia.
Qed.

Lemma midi_range (p : Pitch) : 0 <= midi p <= 127.
Proof. destruct (midi_spec p) as (q & r & H); lia. Qed.

Lemma midi_in_range (p : Pitch) : 0 <= ps p <= 127 -> midi p = ps p.
Proof. intros H. destruct (midi_spec p) as (q & r & H'); lia. Qed.

Lemma ps_Pitch_transpose (k : Z) (p : Pitch) : ps (Pitch_transpose k p) = ps p + k.
Proof. reflexivity. Qed.

(** An octave moves the number read by an octave, or not at all, or by an
    octave the other way. *)
Lemma midi_transpose_octave (octave : Z) (p : Pitch) :
  octave = 12 \/ octave = -12 ->
  midi p - 12 <= midi (Pitch_transpose octave p) <= midi p + 12.
Proof.
  intros Hoct.
  destruct (midi_spec p) as (q & r & H).
  destruct (midi_spec (Pitch_transpose octave p)) as (q' & r' & H').
  rewrite ps_Pitch_transpose in H'. lia.
Qed.

Lemma down_potential_pitch (p pitch : Pitch) :
  midi p - midi pitch - 12 <= 127 * (Z.max 0 (ps p) - Z.max 0 (ps p + -12)).
Proof.
  destruct (midi_spec p) as (q & r & H). pose proof (midi_range pitch). lia.
Qed.

Lemma up_potential_pitch (p pitch : Pitch) :
  midi pitch - midi p - 12 <= 127 * (Z.max 0 (116 - ps p) - Z.max 0 (116 - (ps p + 12))).
Proof.
  destruct (midi_spec p) as (q & r & H). pose proof (midi_range pitch). lia.
Qed.

Lemma sum_cons (x : Z) (l : list Z) : sum (x :: l) = x + sum l.
Proof. reflexivity. Qed.

(** A turn moves the total distance by at most an octave for each pitch. *)
Lemma total_distance_transpose (octave : Z) (chord : Chord) (pitch : Pitch) :
  octave = 12 \/ octave = -12 ->
  total_distance chord pitch - 12 * Z.of_nat (len chord)
  <= total_distance (Chord_transpose octave chord) pitch
  <= total_distance chord pitch + 12 * Z.of_nat (len chord).
Proof.
  intros Hoct. unfold total_distance, Chord_transpose, len.
  induction chord as [|p chord IH]; [cbn; lia|].
  cbn [map List.length]. rewrite !sum_cons.
  pose proof (midi_transpose_octave octave p Hoct). lia.
Qed.

Lemma down_potential (chord : Chord) (pitch : Pitch) :
  total_distance chord pitch - 12 * Z.of_nat (len chord)
  <= 127 * (down_weight chord - down_weight (Chord_transpose (-12) chord)).
Proof.
  unfold total_distance, down_weight, Chord_transpose, len.
  induction chord as [|p chord IH]; [cbn; lia|].
  cbn [map List.length]. rewrite !sum_cons, ps_Pitch_transpose.
  pose proof (down_potential_pitch p pitch). lia.
Qed.

Lemma up_potential (chord : Chord) (pitch : Pitch) :
  - total_distance chord pitch - 12 * Z.of_nat (len chord)
  <= 127 * (up_weight chord - up_weight (Chord_transpose 12 chord)).
Proof.
  unfold total_distance, up_weight, Chord_transpose, len.
  induction chord as [|p chord IH]; [cbn; lia|].
  cbn [map List.length]. rewrite !sum_cons, ps_Pitch_transpose.
  pose proof (up_potential_pitch p pitch). lia.
Qed.

Lemma down_weight_nonneg (chord : Chord) : 0 <= down_weight chord.
Proof.
  unfold down_weight. induction chord as [|p chord IH]; [cbn; lia|].
  cbn [map]. rewrite sum_cons. lia.
Qed.

Lemma up_weight_nonneg (chord : Chord) : 0 <= up_weight chord.
Proof.
  unfold up_weight. induction chord as [|p chord IH]; [cbn; lia|].
  cbn [map]. rewrite sum_cons. lia.
Qed.

Lemma len_Chord_transpose (k : Z) (chord : Chord) :
  len (Chord_transpose k chord) = len chord.
Proof. apply length_map. Qed.

Lemma chord_mean_distance_total (chord : Chord) (pitch : Pitch) (dist : Q) :
  chord_mean_distance chord pitch = Ok dist ->
  (0 < len chord)%nat /\ dist = (total_distance chord pitch # Pos.of_nat (len chord)).
Proof.
  unfold chord_mean_distance, true_div. fold (total_distance chord pitch).
  destruct (len chord); [discriminate|].
  intros H. injection H as <-. split; [lia | reflexivity].
Qed.

Definition inspect {A : Type} (a : A) : {b : A | a = b} := exist _ a eq_refl.

(** The body of the loop of [move_chord]: one octave towards the pitch. *)
Definition move_chord_step (dist : Q) (chord : Chord) : Chord :=
  if Qlt_le_dec dist 0 then Chord_transpose 12 chord else Chord_transpose (-12) chord.

(** A mean distance beyond an octave, as a bound on the total distance. *)
Lemma far_total (chord : Chord) (pitch : Pitch) :
  (0 < len chord)%nat ->
  (12 < Qabs (total_distance chord pitch # Pos.of_nat (len chord)))%Q
  <-> 12 * Z.of_nat (len chord) < Z.abs (total_distance chord pitch).
Proof.
  intros Hlen. unfold Qlt, Qabs. cbn [Qnum Qden].
  assert (Hpos : Z.pos (Pos.of_nat (len chord)) = Z.of_nat (len chord))
    by (destruct (len chord); lia).
  rewrite Hpos. lia.
Qed.

Lemma move_chord_step_cases (chord : Chord) (pitch : Pitch) :
  (0 < len chord)%nat ->
  let dist := total_distance chord pitch # Pos.of_nat (len chord) in
  (total_distance chord pitch < 0 /\ move_chord_step dist chord = Chord_transpose 12 chord)
  \/ (0 <= total_distance chord pitch
      /\ move_chord_step dist chord = Chord_transpose (-12) chord).
Proof.
  intros Hlen dist. unfold move_chord_step, dist.
  destruct (Qlt_le_dec _ 0) as [H | H]; revert H; unfold Qlt, Qle; cbn [Qnum Qden];
    intros H; [left | right]; (split; [lia | reflexivity]).
Qed.

(** Every turn of the loop brings the end nearer. *)
Lemma move_chord_measure_step (chord : Chord) (pitch : Pitch) (dist : Q) :
  chord_mean_distance chord pitch = Ok dist ->
  (12 < Qabs dist)%Q ->
  (move_chord_measure (move_chord_step dist chord) pitch < move_chord_measure chord pitch)%nat.
Proof.
  intros Hdist Hfar. apply chord_mean_distance_total in Hdist as [Hlen ->].
  apply (far_total chord pitch Hlen) in Hfar.
  unfold move_chord_measure. cbn zeta.
  destruct (move_chord_step_cases chord pitch Hlen) as [[Hneg ->] | [Hpos ->]];
    rewrite len_Chord_transpose.
  - pose proof (total_distance_transpose 12 chord pitch (or_introl eq_refl)) as Hstep.
    pose proof (up_potential chord pitch) as Hpot.
    pose proof (up_weight_nonneg (Chord_transpose 12 chord)) as Hnn.
    destruct (Z.ltb_spec (12 * Z.of_nat (len chord)) (total_distance chord pitch)); [lia|].
    destruct (Z.ltb_spec (total_distance chord pitch) (- (12 * Z.of_nat (len chord)))); [|lia].
    destruct (Z.ltb_spec (12 * Z.of_nat (len chord))
                (total_distance (Chord_transpose 12 chord) pitch)); [lia|].
    destruct (Z.ltb_spec (total_distance (Chord_transpose 12 chord) pitch)
                (- (12 * Z.of_nat (len chord)))); lia.
  - pose proof (total_distance_transpose (-12) chord pitch (or_intror eq_refl)) as Hstep.
    pose proof (down_potential chord pitch) as Hpot.
    pose proof (down_weight_nonneg (Chord_transpose (-12) chord)) as Hnn.
    destruct (Z.ltb_spec (12 * Z.of_nat (len chord)) (total_distance chord pitch)); [|lia].
    destruct (Z.ltb_spec (12 * Z.of_nat (len chord))
                (total_distance (Chord_transpose (-12) chord) pitch)); [lia|].
    destruct (Z.ltb_spec (total_distance (Chord_transpose (-12) chord) pitch)
                (- (12 * Z.of_nat (len chord)))); lia.
Qed.

(** [move_chord]: the loop runs while the mean distance is more than twelve
    semitones away from zero.  Python evaluates [chord_mean_distance] once
    for the test and once more for [dist]; both give the same value. *)
Equations? move_chord (chord : Chord) (pitch : Pitch) : Result Chord
  by wf (move_chord_measure chord pitch) lt :=
  move_chord chord pitch with inspect (chord_mean_distance chord pitch) := {
    | exist _ (Raise e) _ => Raise e
    | exist _ Unfinished _ => Unfinished
    | exist _ (Ok dist) Hdist with Qlt_le_dec 12 (Qabs dist) := {
        | left Hfar => move_chord (move_chord_step dist chord) pitch
        | right _ => Ok chord } }.
Proof.
  apply (move_chord_measure_step chord pitch dist Hdist Hfar).
Qed.

(** The body of the loop of [move_pitch]. *)
Definition move_pitch_step (note pitch : Pitch) : Pitch :=
  let dist := midi note - midi pitch in
  if dist <? 0 then Pitch_transpose 12 note else Pitch_transpose (-12) note.

(** [move_pitch]: the loop runs while the note reads more than six semitones
    away from the pitch.  Where the MIDI number read no longer follows the
    transposition the loop need not end; it is given [fuel] turns. *)
Fixpoint move_pitch (fuel : nat) (note pitch : Pitch) : Result Pitch :=
  if 6 <? Z.abs (midi note - midi pitch) then
    match fuel with
    | O => Unfinished
    | S fuel' => move_pitch fuel' (move_pitch_step note pitch) pitch
    end
  else Ok note.

(** ** Inversions (lines 158 to 167) *)

(** [deque.pop()]: the rightmost element and the deque without it. *)
Definition deque_pop (pitches : list Pitch) : Result (Pitch * list Pitch) :=
  match rev pitches with
  | [] => Raise IndexError
  | last :: front => Ok (last, rev front)
  end.

(** One turn of the loop of [all_inversions] on the deque: the last pitch
    goes down an octave and to the front. *)
Definition invert (pitches : list Pitch) : Result (list Pitch) :=
  popped <- deque_pop pitches ;;
  let last := Pitch_transpose (-12) (fst popped) in
  Ok (last :: snd popped).

(** [for i in range(n)]: the deque after each turn is appended to [out]. *)
Fixpoint all_inversions_loop (n : nat) (pitches : list Pitch) (out : list Chord)
  : Result (list Chord) :=
  match n with
  | O => Ok out
  | S n' =>
      pitches <- invert pitches ;;
      all_inversions_loop n' pitches (out ++ [pitches])
  end.

Definition all_inversions (chord : Chord) : Result (list Chord) :=
  all_inversions_loop (len chord) chord [].

(** ** Chord types (lines 170 to 238) *)

Module ChordType.

Record t : Type := mk {
  third_quality : ThirdQuality.t;
  fifth_quality : FifthQuality.t;
  upper_quality : option UpperQuality.t;
  harmonies : list Harmony.t
}.

(** [frozenset(harmonies)]: every harmony once.  The order in which Python
    iterates over the set is left open; the list gives one. *)
Definition frozenset (l : list Harmony.t) : list Harmony.t := nodup Harmony.eq_dec l.

(** [ChordType(third_qual, fifth_qual, upper_qual, harmonies)]. *)
Definition init (third_qual : ThirdQuality.t) (fifth_qual : FifthQuality.t)
  (upper_qual : option UpperQuality.t) (harmonies : list Harmony.t) : t :=
  mk third_qual fifth_qual upper_qual (frozenset harmonies).

Definition with_harmonies (self : t) (harmonies' : list Harmony.t) : t :=
  init (third_quality self) (fifth_quality self) (upper_quality self)
       (harmonies self ++ harmonies').

Definition with_upper_quality (self : t) (upper_qual : UpperQuality.t) : t :=
  init (third_quality self) (fifth_quality self) (Some upper_qual) (harmonies self).

Definition add_dom7 (self : t) : t := with_upper_quality self UpperQuality.DOMINANT_SEVENTH.
Definition add_maj7 (self : t) : t := with_upper_quality self UpperQuality.MAJOR_SEVENTH.
Definition add_min7 (self : t) : t := add_dom7 self.
Definition add_dim7 (self : t) : t := with_upper_quality self UpperQuality.DIMINISHED_SEVENTH.
Definition add_s9 (self : t) : t := with_harmonies self [Harmony.SHARP_NINTH].
Definition add_min9 (self : t) : t := with_harmonies self [Harmony.MINOR_NINTH].
Definition add_maj9 (self : t) : t := with_harmonies self [Harmony.MAJOR_NINTH].
Definition add_s11 (self : t) : t := with_harmonies self [Harmony.SHARP_ELEVENTH].
Definition add_11 (self : t) : t := with_harmonies self [Harmony.ELEVENTH].
Definition add_min13 (self : t) : t := with_harmonies self [Harmony.MINOR_THIRTEENTH].
Definition add_maj13 (self : t) : t := with_harmonies self [Harmony.MAJOR_THIRTEENTH].

End ChordType.

(** ** The voicing selector (lines 240 to 294) *)

(** [PitchInit = Union[str, Pitch]]. *)
Inductive PitchInit : Type :=
| Name (name : string)
| Given (pitch : Pitch).

(** [if isinstance(note, str): note = Pitch(note)]. *)
Definition resolve (note : PitchInit) : Result Pitch :=
  match note with
  | Name name => Pitch_of_string name
  | Given pitch => Ok pitch
  end.

Definition resolve_optional (note : option PitchInit) : Result (option Pitch) :=
  match note with
  | Some note => p <- resolve note ;; Ok (Some p)
  | None => Ok None
  end.

(** Lines 259 to 274: the heap of candidate tones, each pushed with its
    importance weight. *)
Definition candidates (self : ChordType.t) (root_note : Pitch) (include_root : bool)
  : Result (list item) :=
  let chord_heap := [] in
  third <- Pitch_transpose_interval (ThirdQuality.interval (ChordType.third_quality self)) root_note ;;
  fifth <- Pitch_transpose_interval (FifthQuality.interval (ChordType.fifth_quality self)) root_note ;;
  harmonies <- comprehension (fun harm => Pitch_transpose_interval (Harmony.interval harm) root_note)
                             (ChordType.harmonies self) ;;
  let chord_heap := heappush chord_heap (9, third) in
  let chord_heap := fold_left (fun heap harmony => heappush heap (7, harmony)) harmonies chord_heap in
  let chord_heap := heappush chord_heap (1, fifth) in
  let chord_heap := if include_root then heappush chord_heap (3, root_note) else chord_heap in
  match ChordType.upper_quality self with
  | Some upper =>
      tone <- Pitch_transpose_interval (UpperQuality.interval upper) root_note ;;
      Ok (heappush chord_heap (9, tone))
  | None => Ok chord_heap
  end.

Lemma least_In (x : item) (rest : list item) : In (least x rest) (x :: rest).
Proof.
  revert x. induction rest as [|z rest IH]; intros x; [left; reflexivity|].
  cbn [least]. destruct (IH (if item_ltb z x then z else x)) as [<- | Hin].
  - destruct (item_ltb z x); [right; left | left]; reflexivity.
  - right; right; exact Hin.
Qed.

Lemma item_eqb_eq (a b : item) : item_eqb a b = true <-> a = b.
Proof.
  destruct a as [w [d m]], b as [w' [d' m']]. unfold item_eqb, Pitch_eqb. cbn.
  rewrite !andb_true_iff, !Z.eqb_eq. split.
  - intros [-> [-> ->]]. reflexivity.
  - intros H. injection H as -> -> ->. auto.
Qed.

Lemma remove_first_length (m : item) (heap : list item) :
  In m heap -> S (List.length (remove_first m heap)) = List.length heap.
Proof.
  induction heap as [|a heap IH]; intros Hin; [destruct Hin|].
  cbn [remove_first]. destruct (item_eqb m a) eqn:E; [reflexivity|].
  destruct Hin as [-> | Hin].
  - assert (item_eqb m m = true) by (apply item_eqb_eq; reflexivity). congruence.
  - cbn [List.length]. f_equal. apply IH, Hin.
Qed.

Lemma heappop_shorter (heap heap' : list item) (x : item) :
  heappop heap = Ok (x, heap') -> S (List.length heap') = List.length heap.
Proof.
  destruct heap as [|y rest]; [discriminate|].
  unfold heappop. intros H. injection H as <- <-.
  apply (remove_first_length (least y rest) (y :: rest)), least_In.
Qed.

(** Lines 276 and 277: [while len(chord_heap) > max_notes: heappop(chord_heap)]. *)
Equations? trim (chord_heap : list item) (max_notes : Z) : Result (list item)
  by wf (List.length chord_heap) lt :=
  trim chord_heap max_notes with Z_gt_dec (Z.of_nat (List.length chord_heap)) max_notes := {
    | left _ with inspect (heappop chord_heap) := {
        | exist _ (Ok popped) Hpop => trim (snd popped) max_notes
        | exist _ (Raise e) _ => Raise e
        | exist _ Unfinished _ => Unfinished }
    | right _ => Ok chord_heap }.
Proof.
  apply heappop_shorter in Hpop. cbn [snd]. lia.
Qed.

(** [min(xs, key=key)]: the first element whose key is the least; [min] of
    nothing is a [ValueError]. *)
Fixpoint min_loop {A : Type} (key : A -> Result Q) (best : A) (best_key : Q) (rest : list A)
  : Result A :=
  match rest with
  | [] => Ok best
  | x :: rest' =>
      k <- key x ;;
      if Qlt_le_dec k best_key then min_loop key x k rest' else min_loop key best best_key rest'
  end.

Definition min_by {A : Type} (key : A -> Result Q) (xs : list A) : Result A :=
  match xs with
  | [] => Raise (ValueError "min() arg is an empty sequence")
  | x :: rest => k <- key x ;; min_loop key x k rest
  end.

(** Lines 259 to 284: the closed chord the inversions are taken of. *)
Definition closed_chord (self : ChordType.t) (root_note anchor_note : Pitch)
  (max_notes : Z) (include_root : bool) : Result Chord :=
  chord_heap <- candidates self root_note include_root ;;
  chord_heap <- trim chord_heap max_notes ;;
  let chord_base := map snd chord_heap in
  let chord_base := sortDiatonicAscending chord_base in
  chord_base <- move_chord chord_base anchor_note ;;
  Ok (closedPosition chord_base).

(** Lines 285 and 286: its inversions, each moved towards the anchor. *)
Definition normalized_inversions (chord_base : Chord) (anchor_note : Pitch)
  : Result (list Chord) :=
  inversions <- all_inversions chord_base ;;
  comprehension (fun c => move_chord c anchor_note) inversions.

(** Line 288: the inversion closest to the anchor. *)
Definition best_option (inversions : list Chord) (anchor_note : Pitch) : Result Chord :=
  min_by (fun x => chord_mad x anchor_note) inversions.

(** Lines 290 to 292: the bass note, moved to the octave below the anchor,
    joins the chord. *)
Definition attach_bass (fuel : nat) (bass_note : option Pitch) (anchor_note : Pitch)
  (best : Chord) : Result Chord :=
  match bass_note with
  | Some bass_note =>
      bass_note <- move_pitch fuel bass_note (Pitch_transpose (-12) anchor_note) ;;
      Ok (Chord_add bass_note best)
  | None => Ok best
  end.

(** [generate_closed_chord]; [fuel] is the number of turns its call of
    [move_pitch] may take. *)
Definition generate_closed_chord (fuel : nat) (self : ChordType.t)
  (root_note anchor_note : PitchInit)
  (max_notes : Z) (bass_note : option PitchInit) (include_root : bool) : Result Chord :=
  root_note <- resolve root_note ;;
  anchor_note <- resolve anchor_note ;;
  bass_note <- resolve_optional bass_note ;;
  if max_notes <? 2
  then Raise (ValueError "Not really a chord with only one or no notes.")
  else
    chord_base <- closed_chord self root_note anchor_note max_notes include_root ;;
    inversions <- normalized_inversions chord_base anchor_note ;;
    best <- best_option inversions anchor_note ;;
    attach_bass fuel bass_note anchor_note best.

(** The named chord types (lines 297 to 307). *)
Definition MAJOR : ChordType.t :=
  ChordType.init ThirdQuality.MAJOR FifthQuality.PERFECT None [].
Definition MINOR : ChordType.t :=
  ChordType.init ThirdQuality.MINOR FifthQuality.PERFECT None [].
Definition DIMINISHED : ChordType.t :=
  ChordType.init ThirdQuality.MINOR FifthQuality.DIMINISHED None [].
Definition SUS2 : ChordType.t :=
  ChordType.init ThirdQuality.SUS2 FifthQuality.PERFECT None [].
Definition SUS4 : ChordType.t :=
  ChordType.init ThirdQuality.SUS4 FifthQuality.PERFECT None [].

Definition MAJOR_SEVENTH : ChordType.t := ChordType.add_maj7 MAJOR.
Definition MINOR_SEVENTH : ChordType.t := ChordType.add_min7 MINOR.
Definition DIMINISHED_SEVENTH : ChordType.t := ChordType.add_dim7 DIMINISHED.
Definition DOMINANT_SEVENTH : ChordType.t := ChordType.add_dom7 MAJOR.
Definition SUS4_SEVENTH : ChordType.t := ChordType.add_dom7 SUS4.

(** * The vocabulary of the statements *)

(** The octave [move_chord] moves a chord by: up when the chord lies below
    the pitch, down otherwise. *)
Definition octave_towards (chord : Chord) (pitch : Pitch) : Z :=
  if total_distance chord pitch <? 0 then 12 else -12.

(** The pitch class of a pitch: its pitch-space value modulo the octave. *)
Definition pitch_class (p : Pitch) : Z := ps p mod 12.

(** The sum [chord_mad] divides by the length of the chord. *)
Definition total_deviation (chord : Chord) (pitch : Pitch) : Z :=
  sum (map (fun p => Z.abs (midi p - midi pitch)) chord).

(** A chord all of whose pitches lie in the range of MIDI, where the number
    read is the pitch-space value. *)
Definition in_midi_range (chord : Chord) : Prop :=
  forall p : Pitch, In p chord -> 0 <= ps p <= 127.

(** The reference pitches [move_pitch] reaches from every note: every pitch
    class has a MIDI number within six semitones of them. *)
Definition within_reach (pitch : Pitch) : Prop := 5 <= midi pitch <= 121.

(** A number of turns that suffices [move_pitch] for a note, when its
    reference is within reach. *)
Definition turns (note : Pitch) : nat := Z.to_nat (Z.abs (ps note) + 116).

(** What a call with a bass note needs to return: a reference within reach,
    an octave below the anchor, and the turns for the note. *)
Definition bass_placeable (fuel : nat) (bass_note : option Pitch) (anchor_note : Pitch) : Prop :=
  match bass_note with
  | Some bass_note =>
      within_reach (Pitch_transpose (-12) anchor_note) /\ (turns bass_note <= fuel)%nat
  | None => True
  end.

Definition option_list {A : Type} (o : option A) : list A :=
  match o with
  | Some a => [a]
  | None => []
  end.

(** The number of candidate tones: third and fifth, one for each harmony, the
    root when it is included, the upper tone when the chord type has one. *)
Definition candidate_count (self : ChordType.t) (include_root : bool) : nat :=
  2 + List.length (ChordType.harmonies self)
  + (if include_root then 1 else 0)
  + List.length (option_list (ChordType.upper_quality self)).


(** The pitches a bass note adds to the returned chord: one when a bass note
    is supplied. *)
Definition bass_count (bass_note : option PitchInit) : nat :=
  match bass_note with
  | Some _ => 1
  | None => 0
  end.

(** The chord rotated [k] times by [all_inversions]: its top [k] pitches, an
    octave lower, below the others. *)
Definition rotated (k : nat) (chord : Chord) : Chord :=
  map (Pitch_transpose (-12)) (skipn (len chord - k) chord)
  ++ firstn (len chord - k) chord.

(** What the heap compares of an item: its weight and the pitch-space value of
    its pitch. *)
Definition key (x : item) : Z * Z := (fst x, ps (snd x)).

(** A run of the trimming loop: the items it pops, in the order it pops
    them, and the heap it leaves. *)
Inductive trim_run (max_notes : Z) : list item -> list item -> list item -> Prop :=
| trim_run_done (heap : list item) :
    Z.of_nat (List.length heap) <= max_notes ->
    trim_run max_notes heap [] heap
| trim_run_pop (heap heap' discarded kept : list item) (x : item) :
    Z.of_nat (List.length heap) > max_notes ->
    heappop heap = Ok (x, heap') ->
    trim_run max_notes heap' discarded kept ->
    trim_run max_notes heap (x :: discarded) kept.

(** * Properties *)

(** ** Octave normalization *)

Lemma Qabs_frac (t : Z) (n : positive) : Qabs (t # n) = (Z.abs t # n).
Proof. reflexivity. Qed.

Lemma len_pos (chord : Chord) :
  (0 < len chord)%nat -> Z.pos (Pos.of_nat (len chord)) = Z.of_nat (len chord).
Proof. destruct (len chord); lia. Qed.

Lemma chord_mean_distance_ok (chord : Chord) (pitch : Pitch) :
  (0 < len chord)%nat ->
  chord_mean_distance chord pitch
  = Ok (total_distance chord pitch # Pos.of_nat (len chord)).
Proof.
  unfold chord_mean_distance, true_div. fold (total_distance chord pitch).
  destruct (len chord); [lia | reflexivity].
Qed.

Lemma len_move_chord_step (dist : Q) (chord : Chord) :
  len (move_chord_step dist chord) = len chord.
Proof. unfold move_chord_step. destruct (Qlt_le_dec dist 0); apply len_Chord_transpose. Qed.

Lemma move_chord_step_towards (chord : Chord) (pitch : Pitch) :
  (0 < len chord)%nat ->
  move_chord_step (total_distance chord pitch # Pos.of_nat (len chord)) chord
  = Chord_transpose (octave_towards chord pitch) chord.
Proof.
  intros Hlen. unfold octave_towards.
  destruct (move_chord_step_cases chord pitch Hlen) as [[H ->] | [H ->]];
    destruct (Z.ltb_spec (total_distance chord pitch) 0); try reflexivity; lia.
Qed.

Lemma octave_towards_octave (chord : Chord) (pitch : Pitch) :
  octave_towards chord pitch = 12 \/ octave_towards chord pitch = -12.
Proof. unfold octave_towards. destruct (_ <? 0); [left | right]; reflexivity. Qed.

(** The loop of [move_chord], unfolded once. *)
Lemma move_chord_eq (chord : Chord) (pitch : Pitch) :
  move_chord chord pitch
  = match chord_mean_distance chord pitch with
    | Raise e => Raise e
    | Unfinished => Unfinished
    | Ok dist =>
        if Qlt_le_dec 12 (Qabs dist)
        then move_chord (move_chord_step dist chord) pitch
        else Ok chord
    end.
Proof.
  funelim (move_chord chord pitch);
    match goal with
    | E : chord_mean_distance _ _ = _ |- _ => rewrite E
    end;
    try match goal with
    | E : Qlt_le_dec _ _ = _ |- _ => rewrite E
    end;
    try reflexivity; congruence.
Qed.

(** A chord whose mean distance is within twelve semitones stays as it is. *)
Lemma move_chord_near (chord : Chord) (pitch : Pitch) :
  (0 < len chord)%nat ->
  Z.abs (total_distance chord pitch) <= 12 * Z.of_nat (len chord) ->
  move_chord chord pitch = Ok chord.
Proof.
  intros Hlen Hnear.
  rewrite move_chord_eq, chord_mean_distance_ok by exact Hlen.
  destruct (Qlt_le_dec 12 _) as [Hfar | _]; [|reflexivity].
  apply (far_total chord pitch Hlen) in Hfar. lia.
Qed.

(** A chord further away goes through one turn of the loop. *)
Lemma move_chord_far (chord : Chord) (pitch : Pitch) :
  (0 < len chord)%nat ->
  12 * Z.of_nat (len chord) < Z.abs (total_distance chord pitch) ->
  move_chord chord pitch
  = move_chord (Chord_transpose (octave_towards chord pitch) chord) pitch.
Proof.
  intros Hlen Hfar.
  rewrite move_chord_eq, chord_mean_distance_ok by exact Hlen.
  destruct (Qlt_le_dec 12 _) as [_ | Hnear].
  - rewrite move_chord_step_towards by exact Hlen. reflexivity.
  - exfalso. apply (far_total chord pitch Hlen) in Hfar.
    apply (Qlt_not_le _ _ Hfar Hnear).
Qed.

(** A turn of the loop leaves the chord on its side of the pitch. *)
Lemma octave_towards_side (chord : Chord) (pitch : Pitch) :
  (0 < len chord)%nat ->
  12 * Z.of_nat (len chord) < Z.abs (total_distance chord pitch) ->
  let chord' := Chord_transpose (octave_towards chord pitch) chord in
  (0 < total_distance chord pitch -> 0 < total_distance chord' pitch)
  /\ (total_distance chord pitch < 0 -> total_distance chord' pitch < 0)
  /\ octave_towards chord' pitch = octave_towards chord pitch.
Proof.
  intros Hlen Hfar chord'.
  pose proof (total_distance_transpose (octave_towards chord pitch) chord pitch
                (octave_towards_octave chord pitch)) as Hstep.
  fold chord' in Hstep. unfold octave_towards at 2.
  unfold octave_towards in chord'.
  destruct (Z.ltb_spec (total_distance chord pitch) 0) as [Hneg | Hpos].
  - assert (Hup : chord' = Chord_transpose 12 chord) by reflexivity.
    pose proof (total_distance_transpose 12 chord pitch (or_introl eq_refl)) as H12.
    rewrite <- Hup in H12.
    split; [lia|]. split; [lia|]. unfold octave_towards.
    destruct (Z.ltb_spec (total_distance chord' pitch) 0); [reflexivity | lia].
  - assert (Hdown : chord' = Chord_transpose (-12) chord) by reflexivity.
    pose proof (total_distance_transpose (-12) chord pitch (or_intror eq_refl)) as H12.
    rewrite <- Hdown in H12.
    split; [lia|]. split; [lia|]. unfold octave_towards.
    destruct (Z.ltb_spec (total_distance chord' pitch) 0); [lia | reflexivity].
Qed.

Lemma move_chord_measure_towards (chord : Chord) (pitch : Pitch) :
  (0 < len chord)%nat ->
  12 * Z.of_nat (len chord) < Z.abs (total_distance chord pitch) ->
  (move_chord_measure (Chord_transpose (octave_towards chord pitch) chord) pitch
   < move_chord_measure chord pitch)%nat.
Proof.
  intros Hlen Hfar. rewrite <- move_chord_step_towards by exact Hlen.
  apply move_chord_measure_step; [apply chord_mean_distance_ok, Hlen|].
  apply far_total; assumption.
Qed.

(** [move_chord] on a chord with pitches: a number of turns, all by the same
    octave, up to a chord within twelve semitones. *)
Lemma move_chord_run (chord : Chord) (pitch : Pitch) :
  (0 < len chord)%nat ->
  exists n : nat,
    let result := Nat.iter n (Chord_transpose (octave_towards chord pitch)) chord in
    move_chord chord pitch = Ok result
    /\ len result = len chord
    /\ Z.abs (total_distance result pitch) <= 12 * Z.of_nat (len chord).
Proof.
  remember (move_chord_measure chord pitch) as measure eqn:Hm.
  revert chord Hm.
  induction measure as [measure IH] using lt_wf_ind. intros chord Hm Hlen.
  destruct (Z_le_gt_dec (Z.abs (total_distance chord pitch)) (12 * Z.of_nat (len chord)))
    as [Hnear | Hfar].
  - exists 0%nat. change (Nat.iter 0 (Chord_transpose (octave_towards chord pitch)) chord)
      with chord. split; [apply move_chord_near; assumption|].
    split; [reflexivity | exact Hnear].
  - assert (Hfar' : 12 * Z.of_nat (len chord) < Z.abs (total_distance chord pitch)) by lia.
    rewrite (move_chord_far chord pitch Hlen Hfar').
    destruct (octave_towards_side chord pitch Hlen Hfar') as (_ & _ & Hsame).
    cbn zeta in Hsame.
    set (chord' := Chord_transpose (octave_towards chord pitch) chord) in *.
    assert (Hl : len chord' = len chord) by apply len_Chord_transpose.
    destruct (IH (move_chord_measure chord' pitch)) with (chord := chord')
      as [n (Hrun & Hlen' & Hbound)]; [ | reflexivity | lia | ].
    { subst measure. apply move_chord_measure_towards; assumption. }
    cbn zeta in *. rewrite Hsame, Hl in *.
    exists (S n). rewrite Nat.iter_succ_r. fold chord'.
    split; [exact Hrun | split; [exact Hlen' | exact Hbound]].
Qed.

Lemma move_chord_empty (pitch : Pitch) : move_chord [] pitch = Raise ZeroDivisionError.
Proof. rewrite move_chord_eq. reflexivity. Qed.

(** The empty chord is the only one [move_chord] fails on. *)
Lemma len_zero (chord : Chord) : len chord = 0%nat -> chord = [].
Proof. destruct chord; [reflexivity | discriminate]. Qed.

(** Within the range of MIDI a turn moves the total distance by a whole
    octave for each pitch. *)
Lemma total_distance_transpose_in_range (k : Z) (chord : Chord) (pitch : Pitch) :
  in_midi_range chord ->
  in_midi_range (Chord_transpose k chord) ->
  total_distance (Chord_transpose k chord) pitch
  = total_distance chord pitch + k * Z.of_nat (len chord).
Proof.
  unfold total_distance, Chord_transpose, len, in_midi_range.
  induction chord as [|p chord IH]; intros Hin Hin'; [cbn; lia|].
  cbn [map List.length]. rewrite !sum_cons.
  rewrite IH.
  - rewrite (midi_in_range p) by (apply Hin; left; reflexivity).
    rewrite (midi_in_range (Pitch_transpose k p)) by (apply Hin'; left; reflexivity).
    rewrite ps_Pitch_transpose. lia.
  - intros q Hq. apply Hin. right. exact Hq.
  - intros q Hq. apply Hin'. right. exact Hq.
Qed.

(** One turn of the loop: the chord moves by an octave and stays on its side
    of the pitch; within the range of MIDI its mean distance comes closer to
    zero. *)
Lemma move_chord_step_closer (chord : Chord) (pitch : Pitch) (dist : Q) :
  chord_mean_distance chord pitch = Ok dist ->
  (12 < Qabs dist)%Q ->
  exists dist',
    chord_mean_distance (move_chord_step dist chord) pitch = Ok dist'
    /\ ((0 < dist)%Q -> (0 < dist')%Q)
    /\ ((dist < 0)%Q -> (dist' < 0)%Q)
    /\ (in_midi_range chord -> in_midi_range (move_chord_step dist chord) ->
        (Qabs dist' < Qabs dist)%Q).
Proof.
  intros Hdist Hfar.
  apply chord_mean_distance_total in Hdist as [Hlen ->].
  rewrite chord_mean_distance_ok by (rewrite len_move_chord_step; exact Hlen).
  eexists. split; [reflexivity|].
  apply (far_total chord pitch Hlen) in Hfar.
  rewrite len_move_chord_step, move_chord_step_towards by exact Hlen.
  destruct (octave_towards_side chord pitch Hlen Hfar) as (Hpos & Hneg & _).
  cbn zeta in Hpos, Hneg.
  rewrite !Qabs_frac. unfold Qlt. cbn [Qnum Qden]. rewrite (len_pos chord Hlen).
  split; [intros H; assert (0 < total_distance chord pitch) by lia; specialize (Hpos H0); lia|].
  split; [intros H; assert (total_distance chord pitch < 0) by lia; specialize (Hneg H0); lia|].
  intros Hin Hin'.
  rewrite (total_distance_transpose_in_range _ chord pitch Hin Hin').
  unfold octave_towards. destruct (Z.ltb_spec (total_distance chord pitch) 0); nia.
Qed.

(** The loop of [move_pitch]: a note within six semitones is returned as it
    is, whatever the fuel. *)
Lemma move_pitch_near (fuel : nat) (note pitch : Pitch) :
  Z.abs (midi note - midi pitch) <= 6 -> move_pitch fuel note pitch = Ok note.
Proof.
  intros Hnear. destruct fuel; cbn [move_pitch];
    destruct (Z.ltb_spec 6 (Z.abs (midi note - midi pitch))); try reflexivity; lia.
Qed.

Lemma move_pitch_far (fuel : nat) (note pitch : Pitch) :
  6 < Z.abs (midi note - midi pitch) ->
  move_pitch (S fuel) note pitch = move_pitch fuel (move_pitch_step note pitch) pitch.
Proof.
  intros Hfar. cbn [move_pitch].
  destruct (Z.ltb_spec 6 (Z.abs (midi note - midi pitch))); [reflexivity | lia].
Qed.

Lemma move_pitch_far_0 (note pitch : Pitch) :
  6 < Z.abs (midi note - midi pitch) -> move_pitch 0 note pitch = Unfinished.
Proof.
  intros Hfar. cbn [move_pitch].
  destruct (Z.ltb_spec 6 (Z.abs (midi note - midi pitch))); [reflexivity | lia].
Qed.


Lemma Pitch_transpose_octaves (k : Z) (octave : Z) (p : Pitch) :
  octave = 12 \/ octave = -12 ->
  Pitch_transpose octave (Pitch_transpose (12 * k) p)
  = Pitch_transpose (12 * (k + octave / 12)) p.
Proof.
  intros Hoct. unfold Pitch_transpose. cbn [diatonicNoteNum ps].
  assert (H12 : forall n, 12 * n / 12 = n)
    by (intros n; rewrite Z.mul_comm; apply Z.div_mul; lia).
  rewrite !H12. destruct Hoct as [-> | ->].
  - change (12 / 12) with 1. f_equal; lia.
  - change (-12 / 12) with (-1). f_equal; lia.
Qed.

Lemma Pitch_transpose_0 (p : Pitch) : Pitch_transpose (12 * 0) p = p.
Proof. unfold Pitch_transpose. destruct p as [d m]. cbn. f_equal; lia. Qed.

Lemma move_pitch_step_octave (note pitch : Pitch) :
  move_pitch_step note pitch = Pitch_transpose 12 note
  \/ move_pitch_step note pitch = Pitch_transpose (-12) note.
Proof. unfold move_pitch_step. destruct (_ <? 0); [left | right]; reflexivity. Qed.

(** What [move_pitch] returns, when it returns: the note moved by whole
    octaves, and reading within six semitones of the pitch. *)
Lemma move_pitch_returns (fuel : nat) (start pitch : Pitch) :
  forall (note result : Pitch),
    (exists k0 : Z, note = Pitch_transpose (12 * k0) start) ->
    move_pitch fuel note pitch = Ok result ->
    Z.abs (midi result - midi pitch) <= 6
    /\ exists k : Z, result = Pitch_transpose (12 * k) start.
Proof.
  induction fuel as [|fuel IH]; intros note result [k0 Hk0] Hrun;
    destruct (Z_le_gt_dec (Z.abs (midi note - midi pitch)) 6) as [Hnear | Hfar].
  - rewrite move_pitch_near in Hrun by exact Hnear. injection Hrun as <-.
    split; [exact Hnear | exists k0; exact Hk0].
  - rewrite move_pitch_far_0 in Hrun by lia. discriminate.
  - rewrite move_pitch_near in Hrun by exact Hnear. injection Hrun as <-.
    split; [exact Hnear | exists k0; exact Hk0].
  - rewrite move_pitch_far in Hrun by lia.
    apply (IH (move_pitch_step note pitch) result); [|exact Hrun].
    destruct (move_pitch_step_octave note pitch) as [H | H];
      rewrite H, Hk0; eexists; apply Pitch_transpose_octaves; [left | right]; reflexivity.
Qed.

(** With a reference within reach the loop of [move_pitch] ends: a note that
    reads too high lies at 12 or above and comes down, a note that reads too
    low lies at 115 or below and goes up, and neither passes the reference. *)
Lemma move_pitch_ends (pitch : Pitch) :
  within_reach pitch ->
  forall (fuel : nat) (note : Pitch),
    (6 < midi note - midi pitch -> ps note <= Z.of_nat fuel) ->
    (midi note - midi pitch < -6 -> 116 - ps note <= Z.of_nat fuel) ->
    exists result : Pitch, move_pitch fuel note pitch = Ok result.
Proof.
  unfold within_reach. intros Hreach.
  induction fuel as [|fuel IH]; intros note Hdown Hup;
    destruct (Z_le_gt_dec (Z.abs (midi note - midi pitch)) 6) as [Hnear | Hfar];
    try (exists note; apply move_pitch_near; exact Hnear).
  - exfalso. destruct (midi_spec note) as (q & r & H). lia.
  - rewrite move_pitch_far by lia. apply IH; unfold move_pitch_step;
      destruct (Z.ltb_spec (midi note - midi pitch) 0) as [Hneg | Hpos];
      intros Hnext;
      destruct (midi_spec note) as (q & r & H);
      match goal with
      | |- context [Pitch_transpose ?o note] =>
          destruct (midi_spec (Pitch_transpose o note)) as (q' & r' & H');
          rewrite ps_Pitch_transpose in *
      end; lia.
Qed.

Lemma move_pitch_enough (fuel : nat) (note pitch : Pitch) :
  within_reach pitch ->
  (turns note <= fuel)%nat ->
  exists result : Pitch, move_pitch fuel note pitch = Ok result.
Proof.
  intros Hreach Hfuel. unfold turns in Hfuel.
  apply (move_pitch_ends pitch Hreach); intros _; lia.
Qed.

Lemma midi_pitch_class (p : Pitch) : midi p mod 12 = pitch_class p.
Proof.
  unfold pitch_class. destruct (midi_spec p) as (q & r & Hps & Hr & H).
  rewrite Hps, (Z.mul_comm 12 q), Z.add_comm, Z.mod_add, (Z.mod_small r) by lia.
  assert (Hm : exists k, midi p = r + k * 12).
  { destruct H as [H | [H | [H | H]]].
    - exists 10. lia.
    - exists 9. lia.
    - exists 0. lia.
    - exists q. lia. }
  destruct Hm as [k ->]. rewrite Z.mod_add, Z.mod_small by lia. reflexivity.
Qed.

Lemma pitch_class_transpose_octaves (k : Z) (p : Pitch) :
  pitch_class (Pitch_transpose (12 * k) p) = pitch_class p.
Proof.
  unfold pitch_class. rewrite ps_Pitch_transpose, (Z.mul_comm 12 k).
  apply Z.mod_add. lia.
Qed.

(** C7, as stated, at the chord without pitches, where [move_chord] divides
    by the length of the chord and raises instead of returning a chord; and
    at the chord C0, G9 with the anchor G9, where the turn of the loop moves
    the chord up an octave and leaves the mean distance at -115/2, since the
    G above G9 reads 115. *)
Lemma move_chord_of_no_pitches :
  move_chord [] {| diatonicNoteNum := 29; ps := 60 |} = Raise ZeroDivisionError
  /\ chord_mean_distance [mkPitch 1 12; mkPitch 68 127] (mkPitch 68 127) = Ok (-115 # 2)
  /\ move_chord_step (-115 # 2) [mkPitch 1 12; mkPitch 68 127]
     = [mkPitch 8 24; mkPitch 75 139]
  /\ chord_mean_distance [mkPitch 8 24; mkPitch 75 139] (mkPitch 68 127) = Ok (-115 # 2).
Proof.
  split; [apply move_chord_empty|]. repeat split; reflexivity.
Qed.

(** C7, amended: for every chord of at least one pitch and every anchor
    pitch, [move_chord] returns; the chord it returns is the given one moved
    a number of times by twelve semitones, always in the same direction; its
    mean distance to the anchor is at most 12 in absolute value; and every
    turn of the loop, taken when the mean distance is more than 12 away from
    zero, moves the chord by twelve semitones up or down, leaves it on its
    side of the anchor, and, when the pitches lie in the range of MIDI before
    and after the turn, brings the mean distance strictly closer to zero. *)
Theorem move_chord_terminates_within_octave (chord : Chord) (pitch : Pitch) :
  (0 < len chord)%nat ->
  exists (n : nat) (octave : Z) (result : Chord) (dist : Q),
    (octave = 12 \/ octave = -12)
    /\ result = Nat.iter n (Chord_transpose octave) chord
    /\ move_chord chord pitch = Ok result
    /\ chord_mean_distance result pitch = Ok dist
    /\ (Qabs dist <= 12)%Q
    /\ (forall (c : Chord) (d : Q),
          chord_mean_distance c pitch = Ok d ->
          (12 < Qabs d)%Q ->
          move_chord c pitch = move_chord (move_chord_step d c) pitch
          /\ (move_chord_step d c = Chord_transpose 12 c
              \/ move_chord_step d c = Chord_transpose (-12) c)
          /\ exists d',
               chord_mean_distance (move_chord_step d c) pitch = Ok d'
               /\ ((0 < d)%Q -> (0 < d')%Q)
               /\ ((d < 0)%Q -> (d' < 0)%Q)
               /\ (in_midi_range c -> in_midi_range (move_chord_step d c) ->
                   (Qabs d' < Qabs d)%Q)).
Proof.
  intros Hlen.
  destruct (move_chord_run chord pitch Hlen) as [n (Hrun & Hl & Hbound)].
  cbn zeta in *.
  exists n, (octave_towards chord pitch). eexists. eexists.
  split; [apply octave_towards_octave|].
  split; [reflexivity|]. split; [exact Hrun|].
  split; [apply chord_mean_distance_ok; rewrite Hl; exact Hlen|].
  split.
  - rewrite Qabs_frac. unfold Qle. cbn [Qnum Qden]. rewrite Hl, (len_pos chord Hlen). lia.
  - intros c d Hd Hfar. split; [|split].
    + rewrite (move_chord_eq c pitch), Hd.
      destruct (Qlt_le_dec 12 (Qabs d)) as [_ | Hnear]; [reflexivity|].
      exfalso. apply (Qlt_not_le _ _ Hfar Hnear).
    + unfold move_chord_step. destruct (Qlt_le_dec d 0); [left | right]; reflexivity.
    + apply (move_chord_step_closer c pitch d Hd Hfar).
Qed.

(** The theorem at the triad C2, E2, G2 and the anchor C4: two octaves up. *)
Lemma move_chord_terminates_within_octave_witness :
  exists (n : nat) (octave : Z) (result : Chord) (dist : Q),
    (octave = 12 \/ octave = -12)
    /\ result = Nat.iter n (Chord_transpose octave)
                  [mkPitch 15 36; mkPitch 17 40; mkPitch 19 43]
    /\ move_chord [mkPitch 15 36; mkPitch 17 40; mkPitch 19 43] (mkPitch 29 60) = Ok result
    /\ chord_mean_distance result (mkPitch 29 60) = Ok dist
    /\ (Qabs dist <= 12)%Q
    /\ (forall (c : Chord) (d : Q),
          chord_mean_distance c (mkPitch 29 60) = Ok d ->
          (12 < Qabs d)%Q ->
          move_chord c (mkPitch 29 60) = move_chord (move_chord_step d c) (mkPitch 29 60)
          /\ (move_chord_step d c = Chord_transpose 12 c
              \/ move_chord_step d c = Chord_transpose (-12) c)
          /\ exists d',
               chord_mean_distance (move_chord_step d c) (mkPitch 29 60) = Ok d'
               /\ ((0 < d)%Q -> (0 < d')%Q)
               /\ ((d < 0)%Q -> (d' < 0)%Q)
               /\ (in_midi_range c -> in_midi_range (move_chord_step d c) ->
                   (Qabs d' < Qabs d)%Q)).
Proof.
  apply (move_chord_terminates_within_octave
           [mkPitch 15 36; mkPitch 17 40; mkPitch 19 43] (mkPitch 29 60)).
  cbn. lia.
Defined.

(** C8: octave normalization is idempotent.  Moving a chord that
    [move_chord] returned towards the same anchor returns it unchanged (and a
    chord [move_chord] fails on fails both times); moving a pitch that
    [move_pitch] returned towards the same reference returns it unchanged,
    without a turn of the loop (and a call that has not returned has not
    returned). *)
Theorem octave_normalization_idempotent (c : Chord) (a p r : Pitch) (fuel fuel' : nat) :
  (c' <- move_chord c a ;; move_chord c' a) = move_chord c a
  /\ (p' <- move_pitch fuel p r ;; move_pitch fuel' p' r) = move_pitch fuel p r.
Proof.
  split.
  - destruct (Nat.eq_dec (len c) 0) as [Hz | Hnz].
    + apply len_zero in Hz. subst c. rewrite move_chord_empty. reflexivity.
    + destruct (move_chord_run c a) as [n (Hrun & Hl & Hbound)]; [lia|].
      cbn zeta in *. rewrite Hrun. cbn [bind].
      apply move_chord_near; rewrite Hl; [lia | exact Hbound].
  - destruct (move_pitch fuel p r) as [p'| |] eqn:Hrun; cbn [bind]; try reflexivity.
    apply move_pitch_near.
    apply (move_pitch_returns fuel p r p p' (ex_intro _ 0 (eq_sym (Pitch_transpose_0 p))) Hrun).
Qed.

(** ** The pitch-level normalizer *)

(** With a reference within reach, and the turns for the note, [move_pitch]
    returns for every note: the pitch it returns is the given one moved by
    whole octaves, and it reads within six semitones of the reference. *)
Theorem move_pitch_within_six (fuel : nat) (note pitch : Pitch) :
  within_reach pitch ->
  (turns note <= fuel)%nat ->
  exists (k : Z) (result : Pitch),
    move_pitch fuel note pitch = Ok result
    /\ result = Pitch_transpose (12 * k) note
    /\ pitch_class result = pitch_class note
    /\ Z.abs (midi result - midi pitch) <= 6.
Proof.
  intros Hreach Hfuel.
  destruct (move_pitch_enough fuel note pitch Hreach Hfuel) as [result Hrun].
  destruct (move_pitch_returns fuel note pitch note result) as [Hnear [k Hk]];
    [exists 0; symmetry; apply Pitch_transpose_0 | exact Hrun|].
  exists k, result. split; [exact Hrun|]. split; [exact Hk|].
  split; [|exact Hnear].
  rewrite Hk. apply pitch_class_transpose_octaves.
Qed.

(** The theorem at the note G6 and the reference C3: three octaves down. *)
Lemma move_pitch_within_six_witness :
  within_reach (mkPitch 22 48)
  /\ (turns (mkPitch 47 91) <= 300)%nat
  /\ exists (k : Z) (result : Pitch),
       move_pitch 300 (mkPitch 47 91) (mkPitch 22 48) = Ok result
       /\ result = Pitch_transpose (12 * k) (mkPitch 47 91)
       /\ pitch_class result = pitch_class (mkPitch 47 91)
       /\ Z.abs (midi result - midi (mkPitch 22 48)) <= 6.
Proof.
  assert (Hreach : within_reach (mkPitch 22 48)) by (unfold within_reach; cbn; lia).
  assert (Hfuel : (turns (mkPitch 47 91) <= 300)%nat) by (unfold turns; cbn; lia).
  split; [exact Hreach|]. split; [exact Hfuel|].
  apply (move_pitch_within_six 300 (mkPitch 47 91) (mkPitch 22 48) Hreach Hfuel).
Defined.

(** ** Inversions *)

Lemma invert_spec (top : Pitch) (rest : list Pitch) :
  invert (rest ++ [top]) = Ok (Pitch_transpose (-12) top :: rest).
Proof.
  unfold invert, deque_pop. rewrite rev_unit. cbn. rewrite rev_involutive. reflexivity.
Qed.

Lemma nonempty_snoc {A : Type} (l : list A) :
  l <> [] -> exists (x : A) (front : list A), l = front ++ [x].
Proof.
  intros H. destruct (exists_last H) as (front & x & ->). exists x, front. reflexivity.
Qed.

(** The loop of [all_inversions] on a deque that is not empty: [n] turns
    append [n] chords, each made from the one before it. *)
Lemma all_inversions_loop_spec (n : nat) :
  forall (pitches : list Pitch) (out : list Chord),
    pitches <> [] ->
    exists rotations : list Chord,
      all_inversions_loop n pitches out = Ok (out ++ rotations)
      /\ List.length rotations = n
      /\ forall (k : nat) (cur : Chord),
           nth_error rotations k = Some cur ->
           exists (top : Pitch) (rest : list Pitch),
             nth_error (pitches :: rotations) k = Some (rest ++ [top])
             /\ cur = Pitch_transpose (-12) top :: rest.
Proof.
  induction n as [|n IH]; intros pitches out Hne.
  - exists []. rewrite app_nil_r. split; [reflexivity | split; [reflexivity|]].
    intros [|k] cur H; discriminate.
  - destruct (nonempty_snoc pitches Hne) as (top & rest & ->).
    cbn [all_inversions_loop]. rewrite invert_spec. cbn [bind].
    set (next := Pitch_transpose (-12) top :: rest).
    destruct (IH next (out ++ [next])) as (rotations & Hrun & Hlen & Hstep);
      [discriminate|].
    exists (next :: rotations). split; [|split].
    + rewrite Hrun, <- app_assoc. reflexivity.
    + cbn. rewrite Hlen. reflexivity.
    + intros [|k] cur Hk.
      * injection Hk as <-. exists top, rest. split; reflexivity.
      * cbn [nth_error] in Hk. apply Hstep in Hk. exact Hk.
Qed.

(** [all_inversions] on any chord: as many chords as the chord has pitches,
    each made from the one before it, the first from the chord itself. *)
Lemma all_inversions_spec (chord : Chord) :
  exists out : list Chord,
    all_inversions chord = Ok out
    /\ List.length out = len chord
    /\ forall (k : nat) (cur : Chord),
         nth_error out k = Some cur ->
         exists (top : Pitch) (rest : list Pitch),
           nth_error (chord :: out) k = Some (rest ++ [top])
           /\ cur = Pitch_transpose (-12) top :: rest.
Proof.
  unfold all_inversions. destruct chord as [|p chord].
  - exists []. split; [reflexivity | split; [reflexivity|]].
    intros [|k] cur H; discriminate.
  - destruct (all_inversions_loop_spec (len (p :: chord)) (p :: chord) [])
      as (rotations & Hrun & Hlen & Hstep); [discriminate|].
    exists rotations. split; [exact Hrun | split; [exact Hlen | exact Hstep]].
Qed.

(** C3, as stated, at the triad C4, E4, G4: the first chord returned is not
    the given chord but its rotation, with the top pitch G taken down an
    octave and put first; no pitch is appended as a new top. *)
Lemma all_inversions_first_is_rotated :
  exists out : list Chord,
    all_inversions [mkPitch 29 60; mkPitch 31 64; mkPitch 33 67] = Ok out
    /\ nth_error out 0 = Some [mkPitch 26 55; mkPitch 29 60; mkPitch 31 64]
    /\ nth_error out 0 <> Some [mkPitch 29 60; mkPitch 31 64; mkPitch 33 67].
Proof.
  eexists. split; [reflexivity|]. split; [reflexivity | discriminate].
Qed.

(** C3, amended: for every chord of N pitches, [all_inversions] returns
    exactly N chords; output 0 is made from the given chord, and output k from
    output k-1, by taking the last (top) pitch off, moving it down one octave
    and putting it first. *)
Theorem all_inversions_rotations (chord : Chord) :
  exists out : list Chord,
    all_inversions chord = Ok out
    /\ List.length out = len chord
    /\ forall (k : nat) (cur : Chord),
         nth_error out k = Some cur ->
         exists (top : Pitch) (rest : list Pitch),
           nth_error (chord :: out) k = Some (rest ++ [top])
           /\ cur = Pitch_transpose (-12) top :: rest.
Proof.
  destruct chord as [|p chord]; unfold all_inversions.
  - exists []. split; [reflexivity | split; [reflexivity|]].
    intros k cur Hk. destruct k; discriminate.
  - destruct (all_inversions_loop_spec (len (p :: chord)) (p :: chord) [])
      as (rotations & Hrun & Hlen & Hstep); [discriminate|].
    exists rotations. repeat split; assumption.
Qed.

(** ** Inversions in closed form *)

Lemma rotated_zero (chord : Chord) : rotated 0 chord = chord.
Proof.
  unfold rotated. rewrite Nat.sub_0_r. unfold len.
  rewrite skipn_all, firstn_all. reflexivity.
Qed.

Lemma rotated_all (chord : Chord) : rotated (len chord) chord = Chord_transpose (-12) chord.
Proof.
  unfold rotated. rewrite Nat.sub_diag. cbn [skipn firstn]. apply app_nil_r.
Qed.

Lemma firstn_snoc {A : Type} (l : list A) (m : nat) (x : A) :
  nth_error l m = Some x ->
  firstn (S m) l = firstn m l ++ [x] /\ skipn m l = x :: skipn (S m) l.
Proof.
  revert m. induction l as [|a l IH]; intros [|m] H; try discriminate.
  - injection H as <-. split; reflexivity.
  - cbn [nth_error] in H. destruct (IH m H) as [H1 H2]. split.
    + rewrite !firstn_cons, H1. reflexivity.
    + rewrite skipn_cons. exact H2.
Qed.

(** One rotation of the chord rotated [k] times is the chord rotated [k+1]
    times. *)
Lemma rotated_step (k : nat) (chord : Chord) (top : Pitch) (rest : list Pitch) :
  (k < len chord)%nat ->
  rotated k chord = rest ++ [top] ->
  rotated (S k) chord = Pitch_transpose (-12) top :: rest.
Proof.
  intros Hk Hrot. unfold rotated in *.
  replace (len chord - k)%nat with (S (len chord - S k)) in Hrot by lia.
  destruct (nth_error chord (len chord - S k)) as [x|] eqn:Hx.
  - destruct (firstn_snoc chord _ x Hx) as [Hfirst Hskip].
    rewrite Hfirst, app_assoc in Hrot. apply app_inj_tail in Hrot as [<- <-].
    rewrite Hskip. reflexivity.
  - apply nth_error_None in Hx. unfold len in *. lia.
Qed.

(** [all_inversions] in closed form: output [k] is the chord rotated [k+1]
    times, and the last output is the whole chord one octave lower. *)
Theorem all_inversions_closed_form (chord : Chord) :
  exists out : list Chord,
    all_inversions chord = Ok out
    /\ (forall k : nat, (k < len chord)%nat -> nth_error out k = Some (rotated (S k) chord))
    /\ ((0 < len chord)%nat ->
        nth_error out (len chord - 1) = Some (Chord_transpose (-12) chord)).
Proof.
  destruct (all_inversions_spec chord) as (out & Hrun & Hlen & Hstep).
  exists out. split; [exact Hrun|].
  assert (Hall : forall k : nat, (k < len chord)%nat ->
                                 nth_error out k = Some (rotated (S k) chord)).
  { induction k as [|k IH]; intros Hk.
    - destruct (nth_error out 0) as [cur|] eqn:Hcur;
        [|apply nth_error_None in Hcur; lia].
      destruct (Hstep 0%nat cur Hcur) as (top & rest & Hprev & ->).
      cbn in Hprev. injection Hprev as Hprev.
      rewrite (rotated_step 0 chord top rest Hk); [reflexivity|].
      rewrite rotated_zero. exact Hprev.
    - destruct (nth_error out (S k)) as [cur|] eqn:Hcur;
        [|apply nth_error_None in Hcur; lia].
      destruct (Hstep (S k) cur Hcur) as (top & rest & Hprev & ->).
      cbn [nth_error] in Hprev. rewrite IH in Hprev by lia. injection Hprev as Hprev.
      rewrite (rotated_step (S k) chord top rest Hk Hprev). reflexivity. }
  split; [exact Hall|].
  intros Hpos. rewrite Hall by lia.
  replace (S (len chord - 1)) with (len chord) by lia. rewrite rotated_all. reflexivity.
Qed.

(** ** Sorting and closed position *)

Lemma insert_sorted_perm (p : Pitch) (l : list Pitch) :
  Permutation (insert_sorted p l) (p :: l).
Proof.
  induction l as [|q l IH]; [reflexivity|].
  cbn [insert_sorted]. destruct (diatonic_leb p q); [reflexivity|].
  rewrite IH. apply perm_swap.
Qed.

Lemma sortDiatonicAscending_perm (chord : Chord) :
  Permutation (sortDiatonicAscending chord) chord.
Proof.
  induction chord as [|p chord IH]; [reflexivity|].
  cbn [sortDiatonicAscending fold_right]. rewrite insert_sorted_perm.
  apply perm_skip, IH.
Qed.

Lemma len_sortDiatonicAscending (chord : Chord) :
  len (sortDiatonicAscending chord) = len chord.
Proof. apply Permutation_length, sortDiatonicAscending_perm. Qed.

Lemma Pitch_eqb_eq (p q : Pitch) : Pitch_eqb p q = true <-> p = q.
Proof.
  destruct p as [d m], q as [d' m']. unfold Pitch_eqb. cbn.
  rewrite andb_true_iff, !Z.eqb_eq. split.
  - intros [-> ->]. reflexivity.
  - intros H. injection H as -> ->. auto.
Qed.

Lemma existsb_Pitch_eqb (p : Pitch) (seen : list Pitch) :
  existsb (Pitch_eqb p) seen = true <-> In p seen.
Proof.
  rewrite existsb_exists. split.
  - intros (q & Hin & Heq). apply Pitch_eqb_eq in Heq. subst q. exact Hin.
  - intros Hin. exists p. split; [exact Hin | apply Pitch_eqb_eq; reflexivity].
Qed.

Lemma removeRedundantPitches_le (seen pitches : list Pitch) :
  (List.length (removeRedundantPitches seen pitches) <= List.length pitches)%nat.
Proof.
  revert seen. induction pitches as [|p rest IH]; intros seen; [reflexivity|].
  cbn [removeRedundantPitches]. destruct (existsb _ seen); cbn [List.length].
  - specialize (IH seen). lia.
  - specialize (IH (p :: seen)). lia.
Qed.

Lemma removeRedundantPitches_NoDup (seen pitches : list Pitch) :
  NoDup pitches ->
  (forall p, In p pitches -> ~ In p seen) ->
  removeRedundantPitches seen pitches = pitches.
Proof.
  revert seen. induction pitches as [|p rest IH]; intros seen Hnd Hnew; [reflexivity|].
  cbn [removeRedundantPitches].
  destruct (existsb (Pitch_eqb p) seen) eqn:E.
  - apply existsb_Pitch_eqb in E. exfalso. apply (Hnew p); [left; reflexivity | exact E].
  - f_equal. inversion Hnd as [|? ? Hnotin Hnd']; subst.
    apply IH; [exact Hnd'|].
    intros q Hq [<- | Hin]; [contradiction|].
    apply (Hnew q); [right; exact Hq | exact Hin].
Qed.

Lemma pitch_class_lower_to_bass (pBass p : Pitch) :
  pitch_class (lower_to_bass pBass p) = pitch_class p.
Proof.
  unfold lower_to_bass, pitch_class.
  destruct (_ <=? 7); [reflexivity|]. cbn [ps].
  replace (ps p - 12 * ((diatonicNoteNum p - diatonicNoteNum pBass - 1) / 7))
    with (ps p + (- ((diatonicNoteNum p - diatonicNoteNum pBass - 1) / 7)) * 12) by lia.
  apply Z.mod_add. lia.
Qed.

Lemma NoDup_of_map {A B : Type} (f : A -> B) (l : list A) :
  NoDup (map f l) -> NoDup l.
Proof.
  induction l as [|a l IH]; intros H; [constructor|].
  inversion H as [|? ? Hnotin Hnd]; subst. constructor; [|apply IH, Hnd].
  intros Hin. apply Hnotin, in_map, Hin.
Qed.

(** [closedPosition] never adds a pitch, keeps a chord that has pitches from
    becoming empty, and keeps every pitch when the pitch classes differ. *)
Lemma len_closedPosition_le (chord : Chord) :
  (len (closedPosition chord) <= len chord)%nat.
Proof.
  unfold closedPosition. destruct (bass chord) as [pBass|]; [|cbn; lia].
  rewrite len_sortDiatonicAscending. unfold len.
  etransitivity; [apply removeRedundantPitches_le|]. rewrite length_map. reflexivity.
Qed.

Lemma len_closedPosition_pos (chord : Chord) :
  (0 < len chord)%nat -> (0 < len (closedPosition chord))%nat.
Proof.
  destruct chord as [|p chord]; [cbn; lia|]. intros _.
  unfold closedPosition. cbn [bass]. rewrite len_sortDiatonicAscending.
  cbn [map removeRedundantPitches existsb len List.length]. lia.
Qed.

Lemma closedPosition_pitch_classes (chord : Chord) :
  NoDup (map pitch_class chord) ->
  len (closedPosition chord) = len chord
  /\ Permutation (map pitch_class (closedPosition chord)) (map pitch_class chord).
Proof.
  intros Hnd. unfold closedPosition.
  destruct chord as [|p0 chord0]; [split; reflexivity|].
  cbn [bass]. set (pBass := fold_left getWrittenLowerNote chord0 p0).
  set (chord := p0 :: chord0) in *.
  assert (Hclasses : map pitch_class (map (lower_to_bass pBass) chord) = map pitch_class chord).
  { rewrite map_map. apply map_ext. intros p. apply pitch_class_lower_to_bass. }
  rewrite removeRedundantPitches_NoDup.
  - split.
    + rewrite len_sortDiatonicAscending. apply length_map.
    + rewrite (Permutation_map pitch_class (sortDiatonicAscending_perm _)), Hclasses.
      reflexivity.
  - apply (NoDup_of_map pitch_class). rewrite Hclasses. exact Hnd.
  - intros p _ [].
Qed.

(** ** The parts of the voicing selector *)

Lemma all_inversions_lengths (chord : Chord) (out : list Chord) :
  all_inversions chord = Ok out ->
  List.length out = len chord /\ Forall (fun c => len c = len chord) out.
Proof.
  intros Hout.
  destruct (all_inversions_spec chord) as (out' & Hrun & Hlen & Hstep).
  rewrite Hrun in Hout. injection Hout as ->. split; [exact Hlen|].
  apply Forall_forall. intros c Hin. apply In_nth_error in Hin as [k Hk].
  revert c Hk. induction k as [|k IH]; intros c Hk.
  - destruct (Hstep 0%nat c Hk) as (top & rest & Hprev & ->).
    cbn in Hprev. injection Hprev as ->. unfold len. cbn. rewrite length_app. cbn. lia.
  - destruct (Hstep (S k) c Hk) as (top & rest & Hprev & ->).
    cbn [nth_error] in Hprev. apply IH in Hprev. rewrite <- Hprev.
    unfold len. cbn. rewrite length_app. cbn. lia.
Qed.

Lemma comprehension_move_chord (anchor : Pitch) (chords : list Chord) (n : nat) :
  (0 < n)%nat ->
  Forall (fun c => len c = n) chords ->
  exists moved : list Chord,
    comprehension (fun c => move_chord c anchor) chords = Ok moved
    /\ List.length moved = List.length chords
    /\ Forall (fun c => len c = n) moved.
Proof.
  intros Hn. induction chords as [|c chords IH]; intros Hall.
  - exists []. split; [reflexivity | split; [reflexivity | constructor]].
  - inversion Hall as [|? ? Hc Hrest]; subst.
    destruct (IH Hrest) as (moved & Hrun & Hlen & Hlens).
    destruct (move_chord_run c anchor) as (k & Hk & Hl & _); [lia|]. cbn zeta in *.
    eexists (_ :: moved). cbn [comprehension]. rewrite Hk, Hrun. cbn [bind].
    split; [reflexivity|]. split; [cbn; rewrite Hlen; reflexivity|].
    constructor; [exact Hl | exact Hlens].
Qed.

Lemma chord_mad_ok (chord : Chord) (pitch : Pitch) :
  (0 < len chord)%nat -> exists q, chord_mad chord pitch = Ok q.
Proof.
  unfold chord_mad, true_div. destruct (len chord); [lia|]. intros _. eexists. reflexivity.
Qed.

(** [min] with a key returns the first element whose key is the least. *)
Lemma min_loop_spec {A : Type} (key : A -> Result Q) (rest : list A) :
  forall (pre : list A) (i : nat) (best : A) (bk : Q),
    nth_error pre i = Some best ->
    key best = Ok bk ->
    (forall j c kc, nth_error pre j = Some c -> key c = Ok kc ->
                    (bk <= kc)%Q /\ ((j < i)%nat -> (bk < kc)%Q)) ->
    (forall x, In x rest -> exists q, key x = Ok q) ->
    exists (i' : nat) (best' : A) (bk' : Q),
      min_loop key best bk rest = Ok best'
      /\ nth_error (pre ++ rest) i' = Some best'
      /\ key best' = Ok bk'
      /\ forall j c kc, nth_error (pre ++ rest) j = Some c -> key c = Ok kc ->
                        (bk' <= kc)%Q /\ ((j < i')%nat -> (bk' < kc)%Q).
Proof.
  induction rest as [|x rest IH]; intros pre i best bk Hi Hbk Hmin Hkeys.
  - exists i, best, bk. rewrite app_nil_r. cbn [min_loop].
    split; [reflexivity | split; [exact Hi | split; [exact Hbk | exact Hmin]]].
  - destruct (Hkeys x (or_introl eq_refl)) as [k Hk].
    cbn [min_loop]. rewrite Hk. cbn [bind].
    assert (Hi_lt : (i < List.length pre)%nat)
      by (apply nth_error_Some; rewrite Hi; discriminate).
    replace (pre ++ x :: rest) with ((pre ++ [x]) ++ rest)
      by (rewrite <- app_assoc; reflexivity).
    assert (Hx : nth_error (pre ++ [x]) (List.length pre) = Some x)
      by (rewrite nth_error_app2, Nat.sub_diag by lia; reflexivity).
    assert (Hsplit : forall j c, nth_error (pre ++ [x]) j = Some c ->
              ((j < List.length pre)%nat /\ nth_error pre j = Some c)
              \/ (j = List.length pre /\ c = x)).
    { intros j c Hj. destruct (Nat.lt_ge_cases j (List.length pre)) as [Hlt | Hge].
      - left. rewrite nth_error_app1 in Hj by exact Hlt. auto.
      - right. rewrite nth_error_app2 in Hj by exact Hge.
        destruct (j - List.length pre)%nat as [|d] eqn:E.
        + cbn in Hj. injection Hj as <-. split; [lia | reflexivity].
        + destruct d; discriminate. }
    destruct (Qlt_le_dec k bk) as [Hless | Hge].
    + apply (IH (pre ++ [x]) (List.length pre) x k Hx Hk);
        [|intros y Hy; apply Hkeys; right; exact Hy].
      intros j c kc Hj Hkc. destruct (Hsplit j c Hj) as [[Hlt Hpre] | [-> ->]].
      * destruct (Hmin j c kc Hpre Hkc) as [Hle _].
        split; [apply Qlt_le_weak|intros _]; apply (Qlt_le_trans _ bk); assumption.
      * rewrite Hk in Hkc. injection Hkc as <-. split; [apply Qle_refl | lia].
    + apply (IH (pre ++ [x]) i best bk);
        [rewrite nth_error_app1 by exact Hi_lt; exact Hi | exact Hbk | |
         intros y Hy; apply Hkeys; right; exact Hy].
      intros j c kc Hj Hkc. destruct (Hsplit j c Hj) as [[Hlt Hpre] | [-> ->]].
      * apply (Hmin j c kc Hpre Hkc).
      * rewrite Hk in Hkc. injection Hkc as <-. split; [exact Hge | lia].
Qed.

Lemma min_by_spec {A : Type} (key : A -> Result Q) (xs : list A) :
  xs <> [] ->
  (forall x, In x xs -> exists q, key x = Ok q) ->
  exists (i : nat) (best : A) (bk : Q),
    min_by key xs = Ok best
    /\ nth_error xs i = Some best
    /\ key best = Ok bk
    /\ forall j c kc, nth_error xs j = Some c -> key c = Ok kc ->
                      (bk <= kc)%Q /\ ((j < i)%nat -> (bk < kc)%Q).
Proof.
  destruct xs as [|x rest]; [congruence|]. intros _ Hkeys.
  destruct (Hkeys x (or_introl eq_refl)) as [k Hk].
  unfold min_by. rewrite Hk. cbn [bind].
  apply (min_loop_spec key rest [x] 0%nat x k);
    [reflexivity | exact Hk | | intros y Hy; apply Hkeys; right; exact Hy].
  intros [|j] c kc Hj Hkc.
  - cbn in Hj. injection Hj as <-. rewrite Hk in Hkc. injection Hkc as <-.
    split; [apply Qle_refl | lia].
  - destruct j; discriminate.
Qed.

(** ** The heap and the trimming loop *)

(** Python's order on the [(weight, pitch)] tuples is the lexicographic one:
    by weight, and by pitch value among equal weights. *)
Lemma item_ltb_lex (a b : item) :
  item_ltb a b = true
  <-> fst a < fst b \/ (fst a = fst b /\ ps (snd a) < ps (snd b)).
Proof.
  unfold item_ltb, Pitch_ltb.
  destruct (Z.eqb_spec (fst a) (fst b)) as [Hw | Hw]; cbn [negb].
  - destruct (Pitch_eqb (snd a) (snd b)) eqn:Hp; cbn [negb].
    + apply Pitch_eqb_eq in Hp. rewrite Hp. split; [discriminate | lia].
    + rewrite Z.ltb_lt. split; [auto | lia].
  - rewrite Z.ltb_lt. split; [auto | lia].
Qed.

Lemma item_ltb_false (a b : item) :
  item_ltb a b = false
  <-> fst b < fst a \/ (fst a = fst b /\ ps (snd b) <= ps (snd a)).
Proof.
  rewrite <- not_true_iff_false, item_ltb_lex. lia.
Qed.

Lemma least_is_least (x : item) (rest : list item) :
  forall y, In y (x :: rest) -> item_ltb y (least x rest) = false.
Proof.
  revert x. induction rest as [|z rest IH]; intros x y Hy.
  - destruct Hy as [<- | []]. cbn. apply item_ltb_false. lia.
  - cbn [least]. set (m := if item_ltb z x then z else x).
    pose proof (IH m m (or_introl eq_refl)) as Hm.
    assert (Hxz : item_ltb x (least m rest) = false /\ item_ltb z (least m rest) = false).
    { revert Hm. unfold m. destruct (item_ltb z x) eqn:E; intros Hm;
        [apply item_ltb_lex in E | apply item_ltb_false in E];
        apply item_ltb_false in Hm; split; apply item_ltb_false; lia. }
    destruct Hy as [<- | [<- | Hy]]; [apply Hxz | apply Hxz |].
    apply IH. right. exact Hy.
Qed.

Lemma remove_first_perm (m : item) (heap : list item) :
  In m heap -> Permutation heap (m :: remove_first m heap).
Proof.
  induction heap as [|a heap IH]; intros Hin; [destruct Hin|].
  cbn [remove_first]. destruct (item_eqb m a) eqn:E.
  - apply item_eqb_eq in E. subst a. reflexivity.
  - destruct Hin as [-> | Hin].
    + assert (item_eqb m m = true) by (apply item_eqb_eq; reflexivity). congruence.
    + rewrite (IH Hin) at 1. apply perm_swap.
Qed.

(** The contract of [heappop]: on a heap with items it returns the least of
    them and leaves the others. *)
Lemma heappop_spec (heap : list item) :
  heap <> [] ->
  exists (x : item) (heap' : list item),
    heappop heap = Ok (x, heap')
    /\ Permutation heap (x :: heap')
    /\ forall y, In y heap -> item_ltb y x = false.
Proof.
  destruct heap as [|a rest]; [congruence|]. intros _.
  exists (least a rest), (remove_first (least a rest) (a :: rest)).
  split; [reflexivity|]. split.
  - apply remove_first_perm, least_In.
  - apply least_is_least.
Qed.

(** The loop of [trim], unfolded once. *)
Lemma trim_eq (chord_heap : list item) (max_notes : Z) :
  trim chord_heap max_notes
  = if Z_gt_dec (Z.of_nat (List.length chord_heap)) max_notes
    then match heappop chord_heap with
         | Ok popped => trim (snd popped) max_notes
         | Raise e => Raise e
         | Unfinished => Unfinished
         end
    else Ok chord_heap.
Proof.
  funelim (trim chord_heap max_notes);
    match goal with
    | E : Z_gt_dec _ _ = _ |- _ => rewrite E
    end;
    try match goal with
    | E : heappop _ = _ |- _ => rewrite E
    end; reflexivity.
Qed.

Lemma trim_run_trim (max_notes : Z) (heap discarded kept : list item) :
  trim_run max_notes heap discarded kept -> trim heap max_notes = Ok kept.
Proof.
  induction 1 as [heap Hle | heap heap' discarded kept x Hgt Hpop _ IH].
  - rewrite trim_eq. destruct (Z_gt_dec _ max_notes); [lia | reflexivity].
  - rewrite trim_eq, Hpop. destruct (Z_gt_dec _ max_notes); [exact IH | lia].
Qed.

Lemma trim_run_exists (max_notes : Z) (heap : list item) :
  0 <= max_notes ->
  exists discarded kept : list item, trim_run max_notes heap discarded kept.
Proof.
  intros Hm. remember (List.length heap) as n eqn:Hn. revert heap Hn.
  induction n as [|n IH]; intros heap Hn.
  - exists [], heap. apply trim_run_done. lia.
  - destruct (Z_gt_dec (Z.of_nat (List.length heap)) max_notes) as [Hgt | Hle].
    + destruct (heappop_spec heap) as (x & heap' & Hpop & Hperm & _);
        [destruct heap; [discriminate | discriminate]|].
      destruct (IH heap') as (discarded & kept & Hrun).
      { apply Permutation_length in Hperm. cbn in Hperm. lia. }
      exists (x :: discarded), kept. apply (trim_run_pop _ heap heap'); assumption.
    + exists [], heap. apply trim_run_done. lia.
Qed.

(** What a run discards and what it keeps. *)
Lemma trim_run_spec (max_notes : Z) (heap discarded kept : list item) :
  0 <= max_notes ->
  trim_run max_notes heap discarded kept ->
  Permutation heap (discarded ++ kept)
  /\ List.length kept = Nat.min (List.length heap) (Z.to_nat max_notes)
  /\ (forall d k, In d discarded -> In k kept -> item_ltb k d = false)
  /\ (forall i j a b, (i < j)%nat -> nth_error discarded i = Some a ->
                      nth_error discarded j = Some b -> item_ltb b a = false).
Proof.
  intros Hm. induction 1 as [heap Hle | heap heap' discarded kept x Hgt Hpop _ IH].
  - split; [reflexivity|]. split; [lia|]. split; [intros d k []|].
    intros i j a b _ Hi. destruct i; discriminate.
  - destruct IH as (Hperm & Hlen & Hkept & Hsorted).
    destruct (heappop_spec heap) as (x' & heap'' & Hpop' & Hperm' & Hleast).
    { destruct heap; [cbn in Hgt; lia | discriminate]. }
    rewrite Hpop in Hpop'. injection Hpop' as <- <-.
    assert (Hrest : forall y, In y (discarded ++ kept) -> item_ltb y x = false).
    { intros y Hy. apply Hleast. rewrite Hperm'. right. rewrite Hperm. exact Hy. }
    split; [rewrite Hperm'; cbn; apply perm_skip, Hperm|].
    split; [apply Permutation_length in Hperm'; cbn in Hperm'; lia|].
    split.
    + intros d k [<- | Hd] Hk; [apply Hrest, in_or_app; right; exact Hk|].
      apply Hkept; assumption.
    + intros i j a b Hij Hi Hj. destruct j as [|j]; [lia|]. cbn [nth_error] in Hj.
      destruct i as [|i].
      * cbn in Hi. injection Hi as <-. apply Hrest, in_or_app. left.
        apply (nth_error_In _ _ Hj).
      * cbn [nth_error] in Hi. apply (Hsorted i j); [lia | exact Hi | exact Hj].
Qed.

(** ** The candidate tones *)

Lemma third_interval_ok (q : ThirdQuality.t) (r : Pitch) :
  exists p, Pitch_transpose_interval (ThirdQuality.interval q) r = Ok p.
Proof. destruct q; eexists; reflexivity. Qed.

Lemma fifth_interval_ok (q : FifthQuality.t) (r : Pitch) :
  exists p, Pitch_transpose_interval (FifthQuality.interval q) r = Ok p.
Proof. destruct q; eexists; reflexivity. Qed.

Lemma upper_interval_ok (q : UpperQuality.t) (r : Pitch) :
  exists p, Pitch_transpose_interval (UpperQuality.interval q) r = Ok p.
Proof. destruct q; eexists; reflexivity. Qed.

Lemma harmony_interval_ok (q : Harmony.t) (r : Pitch) :
  exists p, Pitch_transpose_interval (Harmony.interval q) r = Ok p.
Proof. destruct q; eexists; reflexivity. Qed.

Lemma harmonies_ok (hs : list Harmony.t) (r : Pitch) :
  exists tones,
    comprehension (fun harm => Pitch_transpose_interval (Harmony.interval harm) r) hs
    = Ok tones
    /\ List.length tones = List.length hs.
Proof.
  induction hs as [|h hs (tones & Hrun & Hlen)].
  - exists []. split; reflexivity.
  - destruct (harmony_interval_ok h r) as [p Hp].
    exists (p :: tones). cbn [comprehension]. rewrite Hp, Hrun. cbn [bind].
    split; [reflexivity | cbn; rewrite Hlen; reflexivity].
Qed.

Lemma push_harmonies (tones : list Pitch) (heap : list item) :
  fold_left (fun heap harmony => heappush heap (7, harmony)) tones heap
  = heap ++ map (pair 7) tones.
Proof.
  revert heap. induction tones as [|p tones IH]; intros heap.
  - cbn. rewrite app_nil_r. reflexivity.
  - cbn [fold_left map]. rewrite IH. unfold heappush. rewrite <- app_assoc. reflexivity.
Qed.

(** The heap of lines 259 to 274, item by item. *)
Lemma candidates_spec (self : ChordType.t) (root_note : Pitch) (include_root : bool) :
  exists (third fifth : Pitch) (harmonies upper : list Pitch),
    Pitch_transpose_interval (ThirdQuality.interval (ChordType.third_quality self)) root_note
    = Ok third
    /\ Pitch_transpose_interval (FifthQuality.interval (ChordType.fifth_quality self)) root_note
       = Ok fifth
    /\ comprehension (fun harm => Pitch_transpose_interval (Harmony.interval harm) root_note)
         (ChordType.harmonies self) = Ok harmonies
    /\ comprehension (fun q => Pitch_transpose_interval (UpperQuality.interval q) root_note)
         (option_list (ChordType.upper_quality self)) = Ok upper
    /\ candidates self root_note include_root
       = Ok ([(9, third)] ++ map (pair 7) harmonies ++ [(1, fifth)]
             ++ (if include_root then [(3, root_note)] else [])
             ++ map (pair 9) upper).
Proof.
  destruct (third_interval_ok (ChordType.third_quality self) root_note) as [third H3].
  destruct (fifth_interval_ok (ChordType.fifth_quality self) root_note) as [fifth H5].
  destruct (harmonies_ok (ChordType.harmonies self) root_note) as (tones & Hh & _).
  unfold candidates. rewrite H3, H5, Hh. cbn [bind]. rewrite push_harmonies.
  unfold heappush.
  destruct (ChordType.upper_quality self) as [q|].
  - destruct (upper_interval_ok q root_note) as [tone Hq].
    exists third, fifth, tones, [tone]. rewrite Hq.
    repeat split; try reflexivity.
    + cbn [option_list comprehension]. rewrite Hq. reflexivity.
    + cbn [bind]. destruct include_root; cbn [map app];
        rewrite <- ?app_assoc; cbn [app]; rewrite <- ?app_assoc; reflexivity.
  - exists third, fifth, tones, []. repeat split; try reflexivity.
    destruct include_root; cbn [map app];
      rewrite <- ?app_assoc, ?app_nil_r; cbn [app]; rewrite <- ?app_assoc; reflexivity.
Qed.

Lemma candidates_length (self : ChordType.t) (root_note : Pitch) (include_root : bool)
  (cands : list item) :
  candidates self root_note include_root = Ok cands ->
  List.length cands = candidate_count self include_root.
Proof.
  destruct (candidates_spec self root_note include_root)
    as (third & fifth & hs & upper & _ & _ & Hh & Hu & ->).
  intros H. injection H as <-.
  destruct (harmonies_ok (ChordType.harmonies self) root_note) as (tones & Hh' & Hlen).
  rewrite Hh in Hh'. injection Hh' as ->.
  assert (Hup : List.length upper = List.length (option_list (ChordType.upper_quality self))).
  { destruct (ChordType.upper_quality self) as [q|]; cbn in Hu |- *.
    - destruct (Pitch_transpose_interval _ _); [|discriminate|discriminate]. cbn in Hu.
      injection Hu as <-. reflexivity.
    - injection Hu as <-. reflexivity. }
  unfold candidate_count. rewrite <- Hlen, <- Hup.
  destruct include_root; cbn [app List.length];
    repeat (rewrite length_app || rewrite length_map || cbn [List.length]); lia.
Qed.

(** ** A call of the voicing selector, step by step *)

Lemma pitch_class_transpose_octave (octave : Z) (p : Pitch) :
  octave = 12 \/ octave = -12 ->
  pitch_class (Pitch_transpose octave p) = pitch_class p.
Proof.
  unfold pitch_class. rewrite ps_Pitch_transpose. intros [-> | ->].
  - apply (Z.mod_add (ps p) 1 12). lia.
  - apply (Z.mod_add (ps p) (-1) 12). lia.
Qed.

Lemma pitch_classes_iter_transpose (octave : Z) (n : nat) (chord : Chord) :
  octave = 12 \/ octave = -12 ->
  map pitch_class (Nat.iter n (Chord_transpose octave) chord) = map pitch_class chord.
Proof.
  intros Hoct. induction n as [|n IH]; [reflexivity|].
  rewrite Nat.iter_succ. unfold Chord_transpose at 1. rewrite map_map, <- IH.
  apply map_ext. intros p. apply pitch_class_transpose_octave, Hoct.
Qed.

(** From the tones the trimming keeps to the closed chord (lines 279 to 284). *)
Lemma closed_chord_of_kept (kept : list item) (anchor : Pitch) :
  (0 < List.length kept)%nat ->
  exists moved : Chord,
    move_chord (sortDiatonicAscending (map snd kept)) anchor = Ok moved
    /\ (0 < len (closedPosition moved))%nat
    /\ (len (closedPosition moved) <= List.length kept)%nat
    /\ (NoDup (map pitch_class (map snd kept)) ->
        len (closedPosition moved) = List.length kept).
Proof.
  intros Hpos.
  set (sorted := sortDiatonicAscending (map snd kept)).
  assert (Hsorted : len sorted = List.length kept)
    by (unfold sorted; rewrite len_sortDiatonicAscending; apply length_map).
  destruct (move_chord_run sorted anchor) as (n & Hrun & Hl & _); [lia|].
  cbn zeta in *. eexists. split; [exact Hrun|].
  split; [apply len_closedPosition_pos; lia|].
  split; [etransitivity; [apply len_closedPosition_le | lia]|].
  intros Hnd.
  destruct (closedPosition_pitch_classes
              (Nat.iter n (Chord_transpose (octave_towards sorted anchor)) sorted))
    as [Hlen _]; [|lia].
  rewrite pitch_classes_iter_transpose by apply octave_towards_octave.
  apply (Permutation_NoDup
           (Permutation_sym (Permutation_map pitch_class
                               (sortDiatonicAscending_perm (map snd kept))))).
  exact Hnd.
Qed.

(** From the closed chord to the inversion that is chosen (lines 285 to 288). *)
Lemma best_option_of_closed (chord_base : Chord) (anchor : Pitch) :
  (0 < len chord_base)%nat ->
  exists (inversions : list Chord) (best : Chord) (i : nat) (mb : Q),
    normalized_inversions chord_base anchor = Ok inversions
    /\ best_option inversions anchor = Ok best
    /\ List.length inversions = len chord_base
    /\ len best = len chord_base
    /\ nth_error inversions i = Some best
    /\ chord_mad best anchor = Ok mb
    /\ forall (j : nat) (c : Chord),
         nth_error inversions j = Some c ->
         len c = len chord_base
         /\ exists mc, chord_mad c anchor = Ok mc
                       /\ (mb <= mc)%Q /\ ((j < i)%nat -> (mb < mc)%Q).
Proof.
  intros Hpos.
  destruct (all_inversions_spec chord_base) as (out & Hout & Hn & _).
  destruct (all_inversions_lengths chord_base out Hout) as [_ Hlens].
  destruct (comprehension_move_chord anchor out (len chord_base) Hpos Hlens)
    as (inversions & Hmoved & Hcount & Hlens').
  assert (Hkeys : forall x, In x inversions -> exists q, chord_mad x anchor = Ok q).
  { intros x Hx. apply chord_mad_ok. rewrite Forall_forall in Hlens'.
    rewrite (Hlens' x Hx). exact Hpos. }
  destruct (min_by_spec (fun x => chord_mad x anchor) inversions)
    as (i & best & mb & Hmin & Hi & Hmb & Hleast); [|exact Hkeys|].
  { intros ->. cbn in Hcount. lia. }
  exists inversions, best, i, mb.
  split; [unfold normalized_inversions; rewrite Hout; exact Hmoved|].
  split; [exact Hmin|]. split; [lia|].
  split; [rewrite Forall_forall in Hlens'; apply Hlens', (nth_error_In _ _ Hi)|].
  split; [exact Hi|]. split; [exact Hmb|].
  intros j c Hj. destruct (Hkeys c (nth_error_In _ _ Hj)) as [mc Hmc].
  split; [rewrite Forall_forall in Hlens'; apply Hlens', (nth_error_In _ _ Hj)|].
  exists mc. split; [exact Hmc|]. apply (Hleast j c mc Hj Hmc).
Qed.

(** The whole of lines 259 to 288 for a size of two or more. *)
Lemma voicing_run (self : ChordType.t) (r a : Pitch) (max_notes : Z) (include_root : bool) :
  2 <= max_notes ->
  exists (cands discarded kept : list item) (chord_base : Chord)
         (inversions : list Chord) (best : Chord) (i : nat) (mb : Q),
    candidates self r include_root = Ok cands
    /\ trim_run max_notes cands discarded kept
    /\ closed_chord self r a max_notes include_root = Ok chord_base
    /\ normalized_inversions chord_base a = Ok inversions
    /\ best_option inversions a = Ok best
    /\ (len chord_base <= List.length kept)%nat
    /\ (NoDup (map pitch_class (map snd kept)) -> len chord_base = List.length kept)
    /\ len best = len chord_base
    /\ nth_error inversions i = Some best
    /\ chord_mad best a = Ok mb
    /\ forall (j : nat) (c : Chord),
         nth_error inversions j = Some c ->
         len c = len chord_base
         /\ exists mc, chord_mad c a = Ok mc
                       /\ (mb <= mc)%Q /\ ((j < i)%nat -> (mb < mc)%Q).
Proof.
  intros Hmax.
  destruct (candidates_spec self r include_root)
    as (third & fifth & hs & upper & _ & _ & _ & _ & Hcands).
  pose proof (candidates_length self r include_root _ Hcands) as Hcount.
  destruct (trim_run_exists max_notes
              ([(9, third)] ++ map (pair 7) hs ++ [(1, fifth)]
               ++ (if include_root then [(3, r)] else []) ++ map (pair 9) upper))
    as (discarded & kept & Hrun); [lia|].
  assert (Hnonneg : 0 <= max_notes) by lia.
  destruct (trim_run_spec _ _ _ _ Hnonneg Hrun) as (_ & Hkept & _).
  assert (Hpos : (0 < List.length kept)%nat).
  { rewrite Hkept, Hcount. unfold candidate_count. lia. }
  destruct (closed_chord_of_kept kept a Hpos) as (moved & Hmoved & Hcpos & Hcle & Hceq).
  destruct (best_option_of_closed (closedPosition moved) a Hcpos)
    as (inversions & best & i & mb & Hinv & Hbest & _ & Hlen & Hi & Hmb & Hleast).
  eexists _, discarded, kept, (closedPosition moved), inversions, best, i, mb.
  split; [exact Hcands|]. split; [exact Hrun|].
  split.
  { unfold closed_chord. rewrite Hcands. cbn [bind].
    rewrite (trim_run_trim _ _ _ _ Hrun). cbn [bind]. rewrite Hmoved. reflexivity. }
  repeat (split; [assumption|]). exact Hleast.
Qed.

(** The bass note (lines 290 to 292): without one the chord is returned as it
    is; with one the call returns when [move_pitch] does, with one pitch
    more, and it never raises. *)
Lemma attach_bass_returns (fuel : nat) (bass_note : option Pitch) (anchor : Pitch)
  (best chord : Chord) :
  attach_bass fuel bass_note anchor best = Ok chord ->
  len chord = (len best + List.length (option_list bass_note))%nat.
Proof.
  destruct bass_note as [b|]; cbn [attach_bass option_list List.length].
  - destruct (move_pitch fuel b _) as [placed| |]; cbn [bind]; try discriminate.
    intros H. injection H as <-.
    unfold Chord_add. rewrite len_sortDiatonicAscending. unfold len.
    rewrite length_app. reflexivity.
  - intros H. injection H as <-. lia.
Qed.

Lemma attach_bass_placeable (fuel : nat) (bass_note : option Pitch) (anchor : Pitch)
  (best : Chord) :
  bass_placeable fuel bass_note anchor ->
  exists chord : Chord, attach_bass fuel bass_note anchor best = Ok chord.
Proof.
  destruct bass_note as [b|]; cbn [attach_bass bass_placeable].
  - intros [Hreach Hfuel].
    destruct (move_pitch_enough fuel b _ Hreach Hfuel) as [placed ->]. cbn [bind].
    eexists. reflexivity.
  - intros _. eexists. reflexivity.
Qed.


Lemma generate_closed_chord_eq (fuel : nat) (self : ChordType.t)
  (root_note anchor_note : PitchInit)
  (max_notes : Z) (bass_note : option PitchInit) (include_root : bool)
  (r a : Pitch) (b : option Pitch) :
  resolve root_note = Ok r ->
  resolve anchor_note = Ok a ->
  resolve_optional bass_note = Ok b ->
  generate_closed_chord fuel self root_note anchor_note max_notes bass_note include_root
  = if max_notes <? 2
    then Raise (ValueError "Not really a chord with only one or no notes.")
    else chord_base <- closed_chord self r a max_notes include_root ;;
         inversions <- normalized_inversions chord_base a ;;
         best <- best_option inversions a ;;
         attach_bass fuel b a best.
Proof.
  intros Hr Ha Hb. unfold generate_closed_chord. rewrite Hr, Ha, Hb. reflexivity.
Qed.

Lemma generate_closed_chord_of_parts (fuel : nat) (self : ChordType.t)
  (root_note anchor_note : PitchInit)
  (max_notes : Z) (bass_note : option PitchInit) (include_root : bool)
  (r a : Pitch) (b : option Pitch) (chord_base : Chord) (inversions : list Chord)
  (best : Chord) :
  resolve root_note = Ok r ->
  resolve anchor_note = Ok a ->
  resolve_optional bass_note = Ok b ->
  2 <= max_notes ->
  closed_chord self r a max_notes include_root = Ok chord_base ->
  normalized_inversions chord_base a = Ok inversions ->
  best_option inversions a = Ok best ->
  generate_closed_chord fuel self root_note anchor_note max_notes bass_note include_root
  = attach_bass fuel b a best.
Proof.
  intros Hr Ha Hb Hmax Hclosed Hinv Hbest.
  rewrite (generate_closed_chord_eq _ _ _ _ _ _ _ r a b Hr Ha Hb).
  destruct (Z.ltb_spec max_notes 2); [lia|].
  rewrite Hclosed. cbn [bind]. rewrite Hinv. cbn [bind]. rewrite Hbest. reflexivity.
Qed.

(** ** The voicing selector *)

Lemma bass_count_resolved (bass_note : option PitchInit) (b : option Pitch) :
  resolve_optional bass_note = Ok b ->
  List.length (option_list b) = bass_count bass_note.
Proof.
  destruct bass_note as [n|]; cbn.
  - destruct (resolve n); [|discriminate|discriminate]. cbn. intros H. injection H as <-.
    reflexivity.
  - intros H. injection H as <-. reflexivity.
Qed.

(** C1, as stated, at the major triad on C4 with the default size of five:
    the chord type has three candidate tones, and three pitches are returned.
    And at the suspended second with a ninth on C4 with a size of three: of
    the four candidate tones three are kept, the second and the ninth meet on
    D4 in closed position, and two pitches are returned. *)
Lemma returned_chord_smaller_than_max_notes :
  (exists chord : Chord,
     (forall fuel : nat,
         generate_closed_chord fuel MAJOR (Name "C4") (Name "C4") 5 None true = Ok chord)
     /\ len chord = 3%nat
     /\ Z.of_nat (len chord) <> 5)
  /\ (exists chord : Chord,
        (forall fuel : nat,
            generate_closed_chord fuel (ChordType.add_maj9 SUS2) (Name "C4") (Name "C4") 3
              None true = Ok chord)
        /\ len chord = 2%nat
        /\ Z.of_nat (len chord) <> 3).
Proof.
  split; eexists; (split; [intros fuel; reflexivity|]); (split; [reflexivity|]);
    discriminate.
Qed.

(** C1, amended: for every call with [max_notes >= 2] and valid pitches, the
    chord the call returns has at most [max_notes] pitches, plus one when a
    bass note is supplied; when the candidate tones have pairwise distinct
    pitch classes, it has exactly as many pitches as the smaller of
    [max_notes] and the number of candidate tones, plus one when a bass note
    is supplied.  The call returns a chord whenever no bass note is supplied,
    and with a bass note whenever the pitch an octave below the anchor reads
    a MIDI number from 5 to 121 (and [move_pitch] is given its turns). *)
Theorem generate_closed_chord_size (fuel : nat) (self : ChordType.t)
  (root_note anchor_note : PitchInit)
  (max_notes : Z) (bass_note : option PitchInit) (include_root : bool)
  (r a : Pitch) (b : option Pitch) :
  resolve root_note = Ok r ->
  resolve anchor_note = Ok a ->
  resolve_optional bass_note = Ok b ->
  2 <= max_notes ->
  exists cands : list item,
    candidates self r include_root = Ok cands
    /\ List.length cands = candidate_count self include_root
    /\ (bass_placeable fuel b a ->
        exists chord : Chord,
          generate_closed_chord fuel self root_note anchor_note max_notes bass_note
            include_root = Ok chord)
    /\ (forall chord : Chord,
          generate_closed_chord fuel self root_note anchor_note max_notes bass_note
            include_root = Ok chord ->
          Z.of_nat (len chord) <= max_notes + Z.of_nat (bass_count bass_note)
          /\ (NoDup (map pitch_class (map snd cands)) ->
              len chord
              = (Nat.min (List.length cands) (Z.to_nat max_notes)
                 + bass_count bass_note)%nat)).
Proof.
  intros Hr Ha Hb Hmax.
  destruct (voicing_run self r a max_notes include_root Hmax)
    as (cands & discarded & kept & chord_base & inversions & best & i & mb
        & Hcands & Hrun & Hclosed & Hinv & Hbest & Hle & Heq & Hlen & _).
  assert (Hnonneg : 0 <= max_notes) by lia.
  destruct (trim_run_spec _ _ _ _ Hnonneg Hrun) as (Hperm & Hkept & _).
  pose proof (generate_closed_chord_of_parts fuel self root_note anchor_note max_notes
                bass_note include_root r a b chord_base inversions best
                Hr Ha Hb Hmax Hclosed Hinv Hbest) as Hcall.
  exists cands.
  split; [exact Hcands|].
  split; [apply (candidates_length _ _ _ _ Hcands)|].
  split.
  - intros Hbass. rewrite Hcall. apply attach_bass_placeable, Hbass.
  - intros chord Hchord. rewrite Hcall in Hchord.
    apply attach_bass_returns in Hchord.
    rewrite Hchord, (bass_count_resolved _ _ Hb), Hlen.
    split; [lia|].
    intros Hnd. rewrite Heq; [lia|].
    apply (Permutation_map snd), (Permutation_map pitch_class) in Hperm.
    apply (Permutation_NoDup Hperm) in Hnd.
    rewrite !map_app in Hnd. apply NoDup_app_remove_l in Hnd. exact Hnd.
Qed.

(** The theorem at the dominant seventh on G4 with a bass note and room for
    three pitches: four candidate tones, three kept, one bass. *)
Lemma generate_closed_chord_size_witness :
  exists cands : list item,
    candidates DOMINANT_SEVENTH (mkPitch 33 67) true = Ok cands
    /\ List.length cands = candidate_count DOMINANT_SEVENTH true
    /\ (bass_placeable 200 (Some (mkPitch 33 67)) (mkPitch 29 60) ->
        exists chord : Chord,
          generate_closed_chord 200 DOMINANT_SEVENTH (Name "G4") (Name "C4") 3
            (Some (Name "G4")) true = Ok chord)
    /\ (forall chord : Chord,
          generate_closed_chord 200 DOMINANT_SEVENTH (Name "G4") (Name "C4") 3
            (Some (Name "G4")) true = Ok chord ->
          Z.of_nat (len chord) <= 3 + Z.of_nat (bass_count (Some (Name "G4")))
          /\ (NoDup (map pitch_class (map snd cands)) ->
              len chord
              = (Nat.min (List.length cands) (Z.to_nat 3)
                 + bass_count (Some (Name "G4")))%nat)).
Proof.
  apply (generate_closed_chord_size 200 DOMINANT_SEVENTH (Name "G4") (Name "C4") 3
           (Some (Name "G4")) true (mkPitch 33 67) (mkPitch 29 60) (Some (mkPitch 33 67)));
    [reflexivity | reflexivity | reflexivity | lia].
Defined.

(** C2, as stated: the call returns a chord that does not hold G4, so its
    pitch set is not the set of C4, E4 and G4. *)
Lemma major_triad_voicing_lacks_G4 :
  exists (chord : Chord) (g4 : Pitch),
    (forall fuel : nat,
        generate_closed_chord fuel MAJOR (Name "C4") (Name "C4") 3 None true = Ok chord)
    /\ Pitch_of_string "G4" = Ok g4
    /\ ~ In g4 chord.
Proof.
  eexists. eexists. split; [intros fuel; reflexivity|]. split; [reflexivity|].
  cbn. intros [H | [H | [H | []]]]; discriminate.
Qed.

(** C2, amended: the major chord type with root C4, anchor C4, three notes
    and the root included yields the chord G3, C4, E4, the inversion of the C
    major triad that lies closest to the anchor. *)
Theorem major_triad_voicing (fuel : nat) :
  exists g3 c4 e4 : Pitch,
    Pitch_of_string "G3" = Ok g3
    /\ Pitch_of_string "C4" = Ok c4
    /\ Pitch_of_string "E4" = Ok e4
    /\ generate_closed_chord fuel MAJOR (Name "C4") (Name "C4") 3 None true
       = Ok [g3; c4; e4].
Proof. do 3 eexists. repeat split; reflexivity. Qed.

Lemma chord_mad_total (chord : Chord) (pitch : Pitch) (mad : Q) :
  chord_mad chord pitch = Ok mad ->
  (0 < len chord)%nat /\ mad = (total_deviation chord pitch # Pos.of_nat (len chord)).
Proof.
  unfold chord_mad, true_div. fold (total_deviation chord pitch).
  destruct (len chord); [discriminate|].
  intros H. injection H as <-. split; [lia | reflexivity].
Qed.

(** Two mean absolute deviations over the same number of pitches compare as
    the sums they are the means of. *)
Lemma chord_mad_compare (c c' : Chord) (pitch : Pitch) (m m' : Q) :
  chord_mad c pitch = Ok m ->
  chord_mad c' pitch = Ok m' ->
  len c' = len c ->
  ((m <= m')%Q <-> total_deviation c pitch <= total_deviation c' pitch)
  /\ ((m < m')%Q <-> total_deviation c pitch < total_deviation c' pitch).
Proof.
  intros Hm Hm' Hlen.
  apply chord_mad_total in Hm as [Hpos ->]. apply chord_mad_total in Hm' as [_ ->].
  rewrite Hlen. unfold Qle, Qlt. cbn [Qnum Qden].
  generalize (Pos.of_nat (len c)). intros n. split; split; intros H; nia.
Qed.

(** C4: the chord chosen before the bass note is attached (the chord a call
    without a bass note returns, and the chord the bass note joins in a call
    with one) is one of the inversions of the closed chord, each moved
    towards the anchor.  Its mean absolute deviation from the anchor, the sum
    of the distances [|p.midi - anchor.midi|] of its pitches over their
    number, is at most that of every one of them, and strictly less than
    that of every one listed before it, so that among equals the first is
    taken. *)
Theorem best_option_is_closest (fuel : nat) (self : ChordType.t)
  (root_note anchor_note : PitchInit)
  (max_notes : Z) (bass_note : option PitchInit) (include_root : bool)
  (r a : Pitch) (b : option Pitch) :
  resolve root_note = Ok r ->
  resolve anchor_note = Ok a ->
  resolve_optional bass_note = Ok b ->
  2 <= max_notes ->
  exists (chord_base : Chord) (inversions : list Chord) (best : Chord) (i : nat) (mb : Q),
    closed_chord self r a max_notes include_root = Ok chord_base
    /\ normalized_inversions chord_base a = Ok inversions
    /\ best_option inversions a = Ok best
    /\ generate_closed_chord fuel self root_note anchor_note max_notes None include_root
       = Ok best
    /\ generate_closed_chord fuel self root_note anchor_note max_notes bass_note include_root
       = attach_bass fuel b a best
    /\ nth_error inversions i = Some best
    /\ chord_mad best a = Ok mb
    /\ forall (j : nat) (c : Chord),
         nth_error inversions j = Some c ->
         len c = len best
         /\ total_deviation best a <= total_deviation c a
         /\ ((j < i)%nat -> total_deviation best a < total_deviation c a)
         /\ exists mc : Q,
              chord_mad c a = Ok mc
              /\ (mb <= mc)%Q
              /\ ((j < i)%nat -> (mb < mc)%Q).
Proof.
  intros Hr Ha Hb Hmax.
  destruct (voicing_run self r a max_notes include_root Hmax)
    as (cands & discarded & kept & chord_base & inversions & best & i & mb
        & _ & _ & Hclosed & Hinv & Hbest & _ & _ & Hlen & Hi & Hmb & Hleast).
  exists chord_base, inversions, best, i, mb.
  repeat (split; [assumption|]).
  split.
  { apply (generate_closed_chord_of_parts fuel self root_note anchor_note max_notes None
             include_root r a None chord_base inversions best); try assumption. reflexivity. }
  split.
  { apply (generate_closed_chord_of_parts _ _ _ _ _ _ _ r a b chord_base inversions);
      assumption. }
  split; [exact Hi|]. split; [exact Hmb|].
  intros j c Hj. destruct (Hleast j c Hj) as (Hlc & mc & Hmc & Hle & Hlt).
  assert (Hsame : len c = len best) by (rewrite Hlc, Hlen; reflexivity).
  destruct (chord_mad_compare best c a mb mc Hmb Hmc Hsame) as [Hcle Hclt].
  split; [exact Hsame|].
  split; [apply Hcle, Hle|].
  split; [intros Hji; apply Hclt, Hlt, Hji|].
  exists mc. split; [exact Hmc|]. split; [exact Hle | exact Hlt].
Qed.

(** The theorem at the minor seventh with a ninth on D4, as the module's own
    example calls it. *)
Lemma best_option_is_closest_witness :
  exists (chord_base : Chord) (inversions : list Chord) (best : Chord) (i : nat) (mb : Q),
    closed_chord (ChordType.add_maj9 MINOR_SEVENTH) (mkPitch 30 62) (mkPitch 29 60) 5 false
    = Ok chord_base
    /\ normalized_inversions chord_base (mkPitch 29 60) = Ok inversions
    /\ best_option inversions (mkPitch 29 60) = Ok best
    /\ generate_closed_chord 200 (ChordType.add_maj9 MINOR_SEVENTH) (Name "D4") (Name "C4") 5
         None false
       = Ok best
    /\ generate_closed_chord 200 (ChordType.add_maj9 MINOR_SEVENTH) (Name "D4") (Name "C4") 5
         (Some (Name "D4")) false
       = attach_bass 200 (Some (mkPitch 30 62)) (mkPitch 29 60) best
    /\ nth_error inversions i = Some best
    /\ chord_mad best (mkPitch 29 60) = Ok mb
    /\ forall (j : nat) (c : Chord),
         nth_error inversions j = Some c ->
         len c = len best
         /\ total_deviation best (mkPitch 29 60) <= total_deviation c (mkPitch 29 60)
         /\ ((j < i)%nat ->
             total_deviation best (mkPitch 29 60) < total_deviation c (mkPitch 29 60))
         /\ exists mc : Q,
              chord_mad c (mkPitch 29 60) = Ok mc
              /\ (mb <= mc)%Q
              /\ ((j < i)%nat -> (mb < mc)%Q).
Proof.
  apply (best_option_is_closest 200 (ChordType.add_maj9 MINOR_SEVENTH) (Name "D4") (Name "C4")
           5 (Some (Name "D4")) false (mkPitch 30 62) (mkPitch 29 60) (Some (mkPitch 30 62)));
    [reflexivity | reflexivity | reflexivity | lia].
Defined.





(** C6: the candidate tones are pushed with the weights 9 for the third, 7
    for every harmony, 1 for the fifth, 3 for the root and 9 for the upper
    tone; and the trimming loop, which pops while more than [max_notes] tones
    are left, pops tones of least weight first: the weights of the tones
    never decrease in the order they are discarded, and no discarded tone
    outweighs a tone that is kept. *)
Theorem weights_and_trimming (self : ChordType.t) (root_note : Pitch) (include_root : bool)
  (max_notes : Z) :
  2 <= max_notes ->
  exists (third fifth : Pitch) (harmonies upper : list Pitch)
         (cands discarded kept : list item),
    Pitch_transpose_interval (ThirdQuality.interval (ChordType.third_quality self)) root_note
    = Ok third
    /\ Pitch_transpose_interval (FifthQuality.interval (ChordType.fifth_quality self)) root_note
       = Ok fifth
    /\ comprehension (fun harm => Pitch_transpose_interval (Harmony.interval harm) root_note)
         (ChordType.harmonies self) = Ok harmonies
    /\ comprehension (fun q => Pitch_transpose_interval (UpperQuality.interval q) root_note)
         (option_list (ChordType.upper_quality self)) = Ok upper
    /\ cands = [(9, third)] ++ map (pair 7) harmonies ++ [(1, fifth)]
               ++ (if include_root then [(3, root_note)] else [])
               ++ map (pair 9) upper
    /\ candidates self root_note include_root = Ok cands
    /\ trim_run max_notes cands discarded kept
    /\ trim cands max_notes = Ok kept
    /\ Permutation cands (discarded ++ kept)
    /\ List.length kept = Nat.min (List.length cands) (Z.to_nat max_notes)
    /\ (forall d k, In d discarded -> In k kept -> fst d <= fst k)
    /\ (forall i j d d', (i < j)%nat -> nth_error discarded i = Some d ->
                         nth_error discarded j = Some d' -> fst d <= fst d').
Proof.
  intros Hmax. assert (Hnonneg : 0 <= max_notes) by lia.
  destruct (candidates_spec self root_note include_root)
    as (third & fifth & hs & upper & H3 & H5 & Hh & Hu & Hcands).
  destruct (trim_run_exists max_notes
              ([(9, third)] ++ map (pair 7) hs ++ [(1, fifth)]
               ++ (if include_root then [(3, root_note)] else []) ++ map (pair 9) upper)
              Hnonneg)
    as (discarded & kept & Hrun).
  destruct (trim_run_spec _ _ _ _ Hnonneg Hrun) as (Hperm & Hkept & Hleast & Horder).
  exists third, fifth, hs, upper. eexists. exists discarded, kept.
  repeat (split; [first [assumption | reflexivity]|]).
  split; [exact (trim_run_trim _ _ _ _ Hrun)|].
  repeat (split; [assumption|]).
  split.
  - intros d k Hd Hk. specialize (Hleast d k Hd Hk). apply item_ltb_false in Hleast. lia.
  - intros i j d d' Hij Hi Hj. specialize (Horder i j d d' Hij Hi Hj).
    apply item_ltb_false in Horder. lia.
Qed.

(** The theorem at the major seventh with a ninth and a thirteenth on C4,
    trimmed to three tones. *)
Lemma weights_and_trimming_witness :
  exists (third fifth : Pitch) (harmonies upper : list Pitch)
         (cands discarded kept : list item),
    Pitch_transpose_interval "M3" (mkPitch 29 60) = Ok third
    /\ Pitch_transpose_interval "P5" (mkPitch 29 60) = Ok fifth
    /\ comprehension (fun harm => Pitch_transpose_interval (Harmony.interval harm) (mkPitch 29 60))
         [Harmony.MAJOR_NINTH; Harmony.MAJOR_THIRTEENTH] = Ok harmonies
    /\ comprehension (fun q => Pitch_transpose_interval (UpperQuality.interval q) (mkPitch 29 60))
         [UpperQuality.MAJOR_SEVENTH] = Ok upper
    /\ cands = [(9, third)] ++ map (pair 7) harmonies ++ [(1, fifth)]
               ++ [(3, mkPitch 29 60)] ++ map (pair 9) upper
    /\ candidates (ChordType.add_maj13 (ChordType.add_maj9 MAJOR_SEVENTH)) (mkPitch 29 60) true
       = Ok cands
    /\ trim_run 3 cands discarded kept
    /\ trim cands 3 = Ok kept
    /\ Permutation cands (discarded ++ kept)
    /\ List.length kept = Nat.min (List.length cands) (Z.to_nat 3)
    /\ (forall d k, In d discarded -> In k kept -> fst d <= fst k)
    /\ (forall i j d d', (i < j)%nat -> nth_error discarded i = Some d ->
                         nth_error discarded j = Some d' -> fst d <= fst d').
Proof.
  apply (weights_and_trimming (ChordType.add_maj13 (ChordType.add_maj9 MAJOR_SEVENTH))
           (mkPitch 29 60) true 3).
  lia.
Defined.

(** C9: when there are fewer candidate tones than [max_notes] and their
    pitch classes differ pairwise, the trimming loop pops nothing, and the
    voicing chosen (the chord a call without a bass note returns) has exactly
    as many pitches as there are candidates, fewer than [max_notes]. *)
Theorem fewer_candidates_than_max_notes (fuel : nat) (self : ChordType.t)
  (root_note anchor_note : PitchInit) (max_notes : Z)
  (include_root : bool) (r a : Pitch) (cands : list item) :
  resolve root_note = Ok r ->
  resolve anchor_note = Ok a ->
  candidates self r include_root = Ok cands ->
  Z.of_nat (List.length cands) < max_notes ->
  NoDup (map pitch_class (map snd cands)) ->
  List.length cands = candidate_count self include_root
  /\ trim cands max_notes = Ok cands
  /\ exists (chord_base : Chord) (inversions : list Chord) (best : Chord),
       closed_chord self r a max_notes include_root = Ok chord_base
       /\ normalized_inversions chord_base a = Ok inversions
       /\ best_option inversions a = Ok best
       /\ generate_closed_chord fuel self root_note anchor_note max_notes None include_root
          = Ok best
       /\ len best = List.length cands
       /\ Z.of_nat (len best) < max_notes.
Proof.
  intros Hr Ha Hcands Hfew Hnd.
  pose proof (candidates_length _ _ _ _ Hcands) as Hcount.
  assert (Hmax : 2 <= max_notes) by (unfold candidate_count in Hcount; lia).
  destruct (voicing_run self r a max_notes include_root Hmax)
    as (cands' & discarded & kept & chord_base & inversions & best & i & mb
        & Hcands' & Hrun & Hclosed & Hinv & Hbest & _ & Heq & Hlen & _).
  rewrite Hcands in Hcands'. injection Hcands' as <-.
  assert (Hkept : kept = cands) by (inversion Hrun; [reflexivity | lia]).
  subst kept.
  split; [exact Hcount|]. split; [exact (trim_run_trim _ _ _ _ Hrun)|].
  exists chord_base, inversions, best.
  repeat (split; [assumption|]).
  split.
  { apply (generate_closed_chord_of_parts fuel self root_note anchor_note max_notes None
             include_root r a None chord_base inversions best); try assumption. reflexivity. }
  rewrite Hlen, (Heq Hnd). split; [reflexivity | exact Hfew].
Qed.

(** The theorem at the plain major triad on C4 with the default size of
    five: three candidates, three pitches. *)
Lemma fewer_candidates_than_max_notes_witness :
  List.length [(9, mkPitch 31 64); (1, mkPitch 33 67); (3, mkPitch 29 60)]
  = candidate_count MAJOR true
  /\ trim [(9, mkPitch 31 64); (1, mkPitch 33 67); (3, mkPitch 29 60)] 5
     = Ok [(9, mkPitch 31 64); (1, mkPitch 33 67); (3, mkPitch 29 60)]
  /\ exists (chord_base : Chord) (inversions : list Chord) (best : Chord),
       closed_chord MAJOR (mkPitch 29 60) (mkPitch 29 60) 5 true = Ok chord_base
       /\ normalized_inversions chord_base (mkPitch 29 60) = Ok inversions
       /\ best_option inversions (mkPitch 29 60) = Ok best
       /\ generate_closed_chord 0 MAJOR (Name "C4") (Name "C4") 5 None true = Ok best
       /\ len best = List.length [(9, mkPitch 31 64); (1, mkPitch 33 67); (3, mkPitch 29 60)]
       /\ Z.of_nat (len best) < 5.
Proof.
  apply (fewer_candidates_than_max_notes 0 MAJOR (Name "C4") (Name "C4") 5 true
           (mkPitch 29 60) (mkPitch 29 60)
           [(9, mkPitch 31 64); (1, mkPitch 33 67); (3, mkPitch 29 60)]);
    [reflexivity | reflexivity | reflexivity | cbn; lia |].
  repeat constructor; cbn; intuition discriminate.
Defined.

(** C10: among candidates of equal weight the trimming loop discards the
    lowest pitch first.  The heap compares [(weight, pitch)] tuples
    lexicographically; a discarded tone is never higher in pitch than a kept
    tone of its weight, nor than a tone of its weight discarded after it. *)
Theorem equal_weights_lowest_pitch_first (self : ChordType.t) (root_note : Pitch)
  (include_root : bool) (max_notes : Z) :
  2 <= max_notes ->
  exists cands discarded kept : list item,
    candidates self root_note include_root = Ok cands
    /\ trim_run max_notes cands discarded kept
    /\ trim cands max_notes = Ok kept
    /\ (forall x y : item,
          item_ltb x y = true
          <-> fst x < fst y \/ (fst x = fst y /\ ps (snd x) < ps (snd y)))
    /\ (forall d k, In d discarded -> In k kept -> fst d = fst k ->
                    ps (snd d) <= ps (snd k))
    /\ (forall i j d d', (i < j)%nat -> nth_error discarded i = Some d ->
                         nth_error discarded j = Some d' -> fst d = fst d' ->
                         ps (snd d) <= ps (snd d')).
Proof.
  intros Hmax. assert (Hnonneg : 0 <= max_notes) by lia.
  destruct (candidates_spec self root_note include_root)
    as (third & fifth & hs & upper & _ & _ & _ & _ & Hcands).
  destruct (trim_run_exists max_notes
              ([(9, third)] ++ map (pair 7) hs ++ [(1, fifth)]
               ++ (if include_root then [(3, root_note)] else []) ++ map (pair 9) upper)
              Hnonneg)
    as (discarded & kept & Hrun).
  destruct (trim_run_spec _ _ _ _ Hnonneg Hrun) as (_ & _ & Hleast & Horder).
  eexists. exists discarded, kept.
  split; [exact Hcands|]. split; [exact Hrun|].
  split; [exact (trim_run_trim _ _ _ _ Hrun)|].
  split; [exact item_ltb_lex|].
  split.
  - intros d k Hd Hk Hw. specialize (Hleast d k Hd Hk). apply item_ltb_false in Hleast. lia.
  - intros i j d d' Hij Hi Hj Hw. specialize (Horder i j d d' Hij Hi Hj).
    apply item_ltb_false in Horder. lia.
Qed.

(** The theorem at the major seventh with a ninth and a thirteenth on C4,
    trimmed to three tones: fifth and root go first, then the ninth, the
    lower of the two harmonies. *)
Lemma equal_weights_lowest_pitch_first_witness :
  exists cands discarded kept : list item,
    candidates (ChordType.add_maj13 (ChordType.add_maj9 MAJOR_SEVENTH)) (mkPitch 29 60) true
    = Ok cands
    /\ trim_run 3 cands discarded kept
    /\ trim cands 3 = Ok kept
    /\ (forall x y : item,
          item_ltb x y = true
          <-> fst x < fst y \/ (fst x = fst y /\ ps (snd x) < ps (snd y)))
    /\ (forall d k, In d discarded -> In k kept -> fst d = fst k ->
                    ps (snd d) <= ps (snd k))
    /\ (forall i j d d', (i < j)%nat -> nth_error discarded i = Some d ->
                         nth_error discarded j = Some d' -> fst d = fst d' ->
                         ps (snd d) <= ps (snd d')).
Proof.
  apply (equal_weights_lowest_pitch_first
           (ChordType.add_maj13 (ChordType.add_maj9 MAJOR_SEVENTH)) (mkPitch 29 60) true 3).
  lia.
Defined.

(** ** The pitch classes of the voicing *)

Lemma removeRedundantPitches_In (seen pitches : list Pitch) (p : Pitch) :
  In p (removeRedundantPitches seen pitches) <-> In p pitches /\ ~ In p seen.
Proof.
  revert seen. induction pitches as [|q rest IH]; intros seen; [cbn; tauto|].
  cbn [removeRedundantPitches].
  destruct (existsb (Pitch_eqb q) seen) eqn:E.
  - apply existsb_Pitch_eqb in E. rewrite IH. cbn [In]. split.
    + intros [H1 H2]. auto.
    + intros [[<- | H1] H2]; [contradiction | auto].
  - assert (Hq : ~ In q seen).
    { intros Hin. apply existsb_Pitch_eqb in Hin. congruence. }
    cbn [In]. rewrite IH. cbn [In]. split.
    + intros [<- | [H1 H2]]; [auto|]. split; [auto | intros H; apply H2; auto].
    + intros [[<- | H1] H2]; [auto|].
      destruct p as [d m], q as [d' m'].
      destruct (Z.eq_dec d' d) as [-> | Hd]; [destruct (Z.eq_dec m' m) as [-> | Hm]|].
      * left. reflexivity.
      * right. split; [exact H1|]. intros [H | H]; [congruence | auto].
      * right. split; [exact H1|]. intros [H | H]; [congruence | auto].
Qed.

Lemma closedPosition_classes (chord : Chord) (pc : Z) :
  In pc (map pitch_class (closedPosition chord)) <-> In pc (map pitch_class chord).
Proof.
  unfold closedPosition. destruct chord as [|p0 chord0]; [reflexivity|].
  cbn [bass]. set (pBass := fold_left getWrittenLowerNote chord0 p0).
  set (chord := p0 :: chord0).
  rewrite (Permutation_in' eq_refl
             (Permutation_map pitch_class (sortDiatonicAscending_perm _))).
  rewrite !in_map_iff. split.
  - intros (p & <- & Hp). apply removeRedundantPitches_In in Hp as [Hp _].
    apply in_map_iff in Hp as (q & <- & Hq). exists q.
    split; [symmetry; apply pitch_class_lower_to_bass | exact Hq].
  - intros (q & <- & Hq). exists (lower_to_bass pBass q).
    split; [apply pitch_class_lower_to_bass|].
    apply removeRedundantPitches_In. split; [apply in_map, Hq | intros []].
Qed.

Lemma all_inversions_classes (chord : Chord) (out : list Chord) :
  all_inversions chord = Ok out ->
  forall (k : nat) (c : Chord) (pc : Z),
    nth_error out k = Some c ->
    (In pc (map pitch_class c) <-> In pc (map pitch_class chord)).
Proof.
  intros Hout.
  destruct (all_inversions_spec chord) as (out' & Hrun & _ & Hstep).
  rewrite Hrun in Hout. injection Hout as ->.
  assert (Hturn : forall (top : Pitch) (rest : list Pitch) (pc : Z),
            In pc (map pitch_class (Pitch_transpose (-12) top :: rest))
            <-> In pc (map pitch_class (rest ++ [top]))).
  { intros top rest pc. rewrite map_app, in_app_iff. cbn [map In].
    rewrite (pitch_class_transpose_octave (-12) top) by (right; reflexivity). tauto. }
  induction k as [|k IH]; intros c pc Hk;
    destruct (Hstep _ c Hk) as (top & rest & Hprev & ->); rewrite Hturn.
  - cbn in Hprev. injection Hprev as ->. reflexivity.
  - cbn [nth_error] in Hprev. apply (IH _ pc Hprev).
Qed.

Lemma comprehension_move_chord_classes (anchor : Pitch) (chords moved : list Chord) :
  comprehension (fun c => move_chord c anchor) chords = Ok moved ->
  forall (i : nat) (c' : Chord),
    nth_error moved i = Some c' ->
    exists c : Chord,
      nth_error chords i = Some c /\ map pitch_class c' = map pitch_class c.
Proof.
  revert moved. induction chords as [|c chords IH]; intros moved Hrun i c' Hi.
  - cbn in Hrun. injection Hrun as <-. destruct i; discriminate.
  - cbn [comprehension] in Hrun.
    destruct (move_chord c anchor) as [m| |] eqn:Hm; [|discriminate|discriminate]. cbn [bind] in Hrun.
    destruct (comprehension _ chords) as [ms| |] eqn:Hms; [|discriminate|discriminate].
    cbn [bind] in Hrun. injection Hrun as <-.
    destruct i as [|i].
    + cbn in Hi. injection Hi as <-. exists c. split; [reflexivity|].
      destruct (Nat.eq_dec (len c) 0) as [Hz | Hnz].
      * apply len_zero in Hz. subst c. rewrite move_chord_empty in Hm. discriminate.
      * destruct (move_chord_run c anchor) as (n & Hrun & _); [lia|]. cbn zeta in Hrun.
        rewrite Hrun in Hm. injection Hm as <-.
        apply pitch_classes_iter_transpose, octave_towards_octave.
    + cbn [nth_error] in Hi |- *. apply (IH ms eq_refl i c' Hi).
Qed.

(** The voicing chosen has the pitch classes of the tones the trimming
    keeps, and no other: sorting, octave moves, closed position and inversion
    change octaves only. *)
Theorem voicing_keeps_pitch_classes (self : ChordType.t) (r a : Pitch) (max_notes : Z)
  (include_root : bool) :
  2 <= max_notes ->
  exists (cands kept : list item) (chord_base : Chord) (inversions : list Chord)
         (best : Chord),
    candidates self r include_root = Ok cands
    /\ trim cands max_notes = Ok kept
    /\ closed_chord self r a max_notes include_root = Ok chord_base
    /\ normalized_inversions chord_base a = Ok inversions
    /\ best_option inversions a = Ok best
    /\ forall pc : Z,
         In pc (map pitch_class best) <-> In pc (map pitch_class (map snd kept)).
Proof.
  intros Hmax.
  destruct (voicing_run self r a max_notes include_root Hmax)
    as (cands & discarded & kept & chord_base & inversions & best & i & mb
        & Hcands & Hrun & Hclosed & Hinv & Hbest & _ & _ & _ & Hi & _).
  exists cands, kept, chord_base, inversions, best.
  pose proof (trim_run_trim _ _ _ _ Hrun) as Htrim.
  repeat (split; [assumption|]).
  intros pc.
  (* the inversion chosen, back to the closed chord *)
  unfold normalized_inversions in Hinv.
  destruct (all_inversions chord_base) as [out| |] eqn:Hout; [|discriminate|discriminate].
  cbn [bind] in Hinv.
  destruct (comprehension_move_chord_classes a out inversions Hinv i best Hi)
    as (c & Hc & ->).
  rewrite (all_inversions_classes chord_base out Hout i c pc Hc).
  (* the closed chord, back to the tones kept *)
  unfold closed_chord in Hclosed. rewrite Hcands in Hclosed. cbn [bind] in Hclosed.
  rewrite Htrim in Hclosed. cbn [bind] in Hclosed.
  destruct (move_chord _ a) as [moved| |] eqn:Hmoved; [|discriminate|discriminate].
  cbn [bind] in Hclosed. injection Hclosed as <-.
  rewrite closedPosition_classes.
  set (sorted := sortDiatonicAscending (map snd kept)) in *.
  destruct (Nat.eq_dec (len sorted) 0) as [Hz | Hnz].
  { apply len_zero in Hz. rewrite Hz, move_chord_empty in Hmoved. discriminate. }
  destruct (move_chord_run sorted a) as (n & Hn & _); [lia|]. cbn zeta in Hn.
  rewrite Hn in Hmoved. injection Hmoved as <-.
  rewrite pitch_classes_iter_transpose by apply octave_towards_octave.
  unfold sorted.
  split; apply Permutation_in, Permutation_map;
    [|apply Permutation_sym]; apply sortDiatonicAscending_perm.
Qed.

Lemma voicing_keeps_pitch_classes_witness :
  exists (cands kept : list item) (chord_base : Chord) (inversions : list Chord)
         (best : Chord),
    candidates (ChordType.add_maj13 DOMINANT_SEVENTH) (mkPitch 33 67) false = Ok cands
    /\ trim cands 5 = Ok kept
    /\ closed_chord (ChordType.add_maj13 DOMINANT_SEVENTH) (mkPitch 33 67) (mkPitch 29 60)
         5 false = Ok chord_base
    /\ normalized_inversions chord_base (mkPitch 29 60) = Ok inversions
    /\ best_option inversions (mkPitch 29 60) = Ok best
    /\ forall pc : Z,
         In pc (map pitch_class best) <-> In pc (map pitch_class (map snd kept)).
Proof.
  apply (voicing_keeps_pitch_classes (ChordType.add_maj13 DOMINANT_SEVENTH)
           (mkPitch 33 67) (mkPitch 29 60) 5 false).
  lia.
Defined.

(** ** The bass note *)

(** A bass note, when one is supplied, is in the chord that is returned: it
    is the given note moved by whole octaves to read within six semitones of
    the pitch an octave below the anchor.  The call returns when that pitch
    reads a MIDI number from 5 to 121 (and [move_pitch] is given its
    turns). *)
Theorem bass_note_below_anchor (fuel : nat) (self : ChordType.t)
  (root_note anchor_note bass_note : PitchInit)
  (max_notes : Z) (include_root : bool) (r a b : Pitch) :
  resolve root_note = Ok r ->
  resolve anchor_note = Ok a ->
  resolve bass_note = Ok b ->
  2 <= max_notes ->
  within_reach (Pitch_transpose (-12) a) ->
  (turns b <= fuel)%nat ->
  exists (chord : Chord) (placed : Pitch),
    generate_closed_chord fuel self root_note anchor_note max_notes (Some bass_note)
      include_root = Ok chord
    /\ In placed chord
    /\ pitch_class placed = pitch_class b
    /\ Z.abs (midi placed - midi (Pitch_transpose (-12) a)) <= 6.
Proof.
  intros Hr Ha Hb Hmax Hreach Hfuel.
  destruct (voicing_run self r a max_notes include_root Hmax)
    as (cands & discarded & kept & chord_base & inversions & best & i & mb
        & _ & _ & Hclosed & Hinv & Hbest & _).
  assert (Hbass : resolve_optional (Some bass_note) = Ok (Some b))
    by (cbn; rewrite Hb; reflexivity).
  destruct (move_pitch_enough fuel b _ Hreach Hfuel) as [placed Hplaced].
  destruct (move_pitch_returns fuel b (Pitch_transpose (-12) a) b placed) as [Hnear [k Hk]];
    [exists 0; symmetry; apply Pitch_transpose_0 | exact Hplaced|].
  exists (Chord_add placed best), placed.
  split.
  { rewrite (generate_closed_chord_of_parts fuel self root_note anchor_note max_notes
               (Some bass_note) include_root r a (Some b) chord_base inversions best
               Hr Ha Hbass Hmax Hclosed Hinv Hbest).
    cbn [attach_bass]. rewrite Hplaced. reflexivity. }
  split; [|split].
  - unfold Chord_add.
    apply (Permutation_in _ (Permutation_sym (sortDiatonicAscending_perm _))).
    apply in_or_app. right. left. reflexivity.
  - rewrite Hk. apply pitch_class_transpose_octaves.
  - exact Hnear.
Qed.

Lemma bass_note_below_anchor_witness :
  within_reach (Pitch_transpose (-12) (mkPitch 29 60))
  /\ (turns (mkPitch 29 60) <= 200)%nat
  /\ exists (chord : Chord) (placed : Pitch),
       generate_closed_chord 200 (ChordType.add_maj9 MAJOR_SEVENTH) (Name "C4") (Name "C4") 5
         (Some (Name "C4")) false = Ok chord
       /\ In placed chord
       /\ pitch_class placed = pitch_class (mkPitch 29 60)
       /\ Z.abs (midi placed - midi (Pitch_transpose (-12) (mkPitch 29 60))) <= 6.
Proof.
  assert (Hreach : within_reach (Pitch_transpose (-12) (mkPitch 29 60)))
    by (unfold within_reach; cbn; lia).
  assert (Hfuel : (turns (mkPitch 29 60) <= 200)%nat) by (unfold turns; cbn; lia).
  split; [exact Hreach|]. split; [exact Hfuel|].
  apply (bass_note_below_anchor 200 (ChordType.add_maj9 MAJOR_SEVENTH) (Name "C4")
           (Name "C4") (Name "C4") 5 false (mkPitch 29 60) (mkPitch 29 60) (mkPitch 29 60));
    [reflexivity | reflexivity | reflexivity | lia | exact Hreach | exact Hfuel].
Defined.

(** ** Means of a chord *)

Lemma abs_sum_le (l : list Z) : Z.abs (sum l) <= sum (map Z.abs l).
Proof.
  unfold sum. induction l as [|x l IH]; [cbn; lia|]. cbn [map fold_right]. lia.
Qed.

Lemma sum_abs_nonneg (l : list Z) : 0 <= sum (map Z.abs l).
Proof.
  unfold sum. induction l as [|x l IH]; [cbn; lia|]. cbn [map fold_right]. lia.
Qed.

Lemma sum_abs_zero (l : list Z) : sum (map Z.abs l) = 0 <-> forall x, In x l -> x = 0.
Proof.
  unfold sum. induction l as [|x l IH]; [cbn; tauto|].
  cbn [map fold_right In]. pose proof (sum_abs_nonneg l) as Hnn. unfold sum in Hnn.
  split.
  - intros H y [<- | Hy]; [lia|]. apply IH; [lia | exact Hy].
  - intros H. rewrite (H x (or_introl eq_refl)).
    assert (Hl : fold_right Z.add 0 (map Z.abs l) = 0) by (apply IH; intros y Hy; apply H; auto).
    rewrite Hl. reflexivity.
Qed.

(** The three means of [chords.py] divide by the number of pitches: on a
    chord without pitches each raises [ZeroDivisionError]; on any other chord
    each returns, the pitch center lies within the range of MIDI, the
    magnitude of the mean distance is at most the mean absolute deviation,
    and the deviation is not above zero exactly when every pitch reads the
    MIDI number of the given pitch. *)
Theorem chord_means (chord : Chord) (pitch : Pitch) :
  (chord = []
   /\ pitch_center chord = Raise ZeroDivisionError
   /\ chord_mad chord pitch = Raise ZeroDivisionError
   /\ chord_mean_distance chord pitch = Raise ZeroDivisionError)
  \/ (chord <> []
      /\ exists center mad dist : Q,
           pitch_center chord = Ok center
           /\ chord_mad chord pitch = Ok mad
           /\ chord_mean_distance chord pitch = Ok dist
           /\ (0 <= center)%Q /\ (center <= 127)%Q
           /\ (Qabs dist <= mad)%Q
           /\ ((mad <= 0)%Q <-> forall p, In p chord -> midi p = midi pitch)).
Proof.
  destruct chord as [|p0 chord0]; [left; repeat split; reflexivity|].
  right. split; [discriminate|].
  set (chord := p0 :: chord0).
  unfold pitch_center, chord_mad, chord_mean_distance, true_div.
  assert (Hlen : len chord = S (len chord0)) by reflexivity. rewrite Hlen.
  do 3 eexists. do 3 (split; [reflexivity|]).
  set (n := Pos.of_nat (S (len chord0))).
  assert (Hn : Z.pos n = Z.of_nat (len chord)) by (unfold n; rewrite Hlen; lia).
  assert (Hsum : 0 <= sum (map midi chord) <= 127 * Z.of_nat (len chord)).
  { clear. unfold len. induction chord as [|p chord IH]; [cbn; lia|].
    cbn [map List.length]. rewrite sum_cons. pose proof (midi_range p). lia. }
  split; [|split; [|split]].
  - unfold Qle. cbn [Qnum Qden]. lia.
  - unfold Qle. cbn [Qnum Qden]. lia.
  - rewrite Qabs_frac. unfold Qle. cbn [Qnum Qden].
    apply Z.mul_le_mono_nonneg_r; [lia|].
    rewrite <- (map_map (fun p => midi p - midi pitch) Z.abs). apply abs_sum_le.
  - unfold Qle. cbn [Qnum Qden]. rewrite Z.mul_1_r, Z.mul_0_l.
    rewrite <- (map_map (fun p => midi p - midi pitch) Z.abs).
    pose proof (sum_abs_nonneg (map (fun p => midi p - midi pitch) chord)) as Hnn.
    assert (Hzero : sum (map Z.abs (map (fun p => midi p - midi pitch) chord)) <= 0
                    <-> sum (map Z.abs (map (fun p => midi p - midi pitch) chord)) = 0)
      by lia.
    rewrite Hzero, sum_abs_zero.
    split.
    + intros H p Hp. specialize (H (midi p - midi pitch)).
      assert (midi p - midi pitch = 0); [|lia].
      apply H, in_map_iff. exists p. split; [reflexivity | exact Hp].
    + intros H x Hx. apply in_map_iff in Hx as (p & <- & Hp). rewrite (H p Hp). lia.
Qed.

(** ** Where the normalizers stop *)

Lemma move_chord_side (chord : Chord) (pitch : Pitch) :
  (0 < len chord)%nat ->
  exists result : Chord,
    move_chord chord pitch = Ok result
    /\ len result = len chord
    /\ (12 * Z.of_nat (len chord) < total_distance chord pitch ->
        0 < total_distance result pitch <= 12 * Z.of_nat (len chord))
    /\ (total_distance chord pitch < - (12 * Z.of_nat (len chord)) ->
        - (12 * Z.of_nat (len chord)) <= total_distance result pitch < 0)
    /\ (Z.abs (total_distance chord pitch) <= 12 * Z.of_nat (len chord) ->
        result = chord).
Proof.
  remember (move_chord_measure chord pitch) as measure eqn:Hm.
  revert chord Hm.
  induction measure as [measure IH] using lt_wf_ind. intros chord Hm Hlen.
  destruct (Z_le_gt_dec (Z.abs (total_distance chord pitch)) (12 * Z.of_nat (len chord)))
    as [Hnear | Hfar].
  - exists chord. rewrite (move_chord_near chord pitch Hlen Hnear).
    split; [reflexivity|]. split; [reflexivity|]. repeat split; intros; lia.
  - assert (Hfar' : 12 * Z.of_nat (len chord) < Z.abs (total_distance chord pitch)) by lia.
    rewrite (move_chord_far chord pitch Hlen Hfar').
    destruct (octave_towards_side chord pitch Hlen Hfar') as (Hpos & Hneg & _).
    cbn zeta in Hpos, Hneg.
    set (chord' := Chord_transpose (octave_towards chord pitch) chord) in *.
    assert (Hl : len chord' = len chord) by apply len_Chord_transpose.
    destruct (IH (move_chord_measure chord' pitch)) with (chord := chord')
      as (result & Hrun & Hlen' & Habove & Hbelow & Hsame); [ | reflexivity | lia | ].
    { subst measure. apply move_chord_measure_towards; assumption. }
    rewrite Hl in *. exists result. split; [exact Hrun|]. split; [exact Hlen'|].
    split; [|split; [|intros; lia]].
    + intros Habove0.
      destruct (Z_le_gt_dec (total_distance chord' pitch) (12 * Z.of_nat (len chord)))
        as [Hin | Hout].
      * rewrite (Hsame ltac:(lia)). lia.
      * apply Habove. lia.
    + intros Hbelow0.
      destruct (Z_le_gt_dec (- (12 * Z.of_nat (len chord))) (total_distance chord' pitch))
        as [Hin | Hout].
      * rewrite (Hsame ltac:(lia)). lia.
      * apply Hbelow. lia.
Qed.

(** [move_chord] stops on the side of the anchor it started from: a chord
    whose mean distance is above 12 ends with a mean distance above 0 and at
    most 12, one below -12 ends at -12 or above and below 0, and a chord
    within 12 semitones is returned as it is.  The chord returned is therefore
    not always the octave transposition nearest to the anchor. *)
Theorem move_chord_stops_on_its_side (chord : Chord) (pitch : Pitch) (dist : Q) :
  chord_mean_distance chord pitch = Ok dist ->
  exists (result : Chord) (dist' : Q),
    move_chord chord pitch = Ok result
    /\ chord_mean_distance result pitch = Ok dist'
    /\ ((12 < dist)%Q -> (0 < dist')%Q /\ (dist' <= 12)%Q)
    /\ ((dist < -12)%Q -> (-12 <= dist')%Q /\ (dist' < 0)%Q)
    /\ ((Qabs dist <= 12)%Q -> result = chord).
Proof.
  intros Hdist. apply chord_mean_distance_total in Hdist as [Hlen ->].
  destruct (move_chord_side chord pitch Hlen)
    as (result & Hrun & Hl & Habove & Hbelow & Hsame).
  exists result. eexists. split; [exact Hrun|].
  split; [apply chord_mean_distance_ok; rewrite Hl; exact Hlen|].
  rewrite Hl, Qabs_frac. unfold Qlt, Qle. cbn [Qnum Qden].
  rewrite (len_pos chord Hlen). repeat split; intros; try lia.
  apply Hsame. lia.
Qed.

Lemma move_chord_stops_on_its_side_witness :
  exists (result : Chord) (dist' : Q),
    move_chord [mkPitch 43 84; mkPitch 45 88; mkPitch 46 89] (mkPitch 29 60) = Ok result
    /\ chord_mean_distance result (mkPitch 29 60) = Ok dist'
    /\ ((12 < 81 # 3)%Q -> (0 < dist')%Q /\ (dist' <= 12)%Q)
    /\ ((81 # 3 < -12)%Q -> (-12 <= dist')%Q /\ (dist' < 0)%Q)
    /\ ((Qabs (81 # 3) <= 12)%Q -> result = [mkPitch 43 84; mkPitch 45 88; mkPitch 46 89]).
Proof.
  apply (move_chord_stops_on_its_side [mkPitch 43 84; mkPitch 45 88; mkPitch 46 89]
           (mkPitch 29 60) (81 # 3)).
  reflexivity.
Defined.

(** What [move_pitch] returns is the octave transposition of the note that
    reads nearest to the reference: no transposition of the note by whole
    octaves reads closer. *)
Theorem move_pitch_is_nearest_octave (fuel : nat) (note pitch result : Pitch) (k : Z) :
  move_pitch fuel note pitch = Ok result ->
  Z.abs (midi result - midi pitch)
  <= Z.abs (midi (Pitch_transpose (12 * k) note) - midi pitch).
Proof.
  intros Hrun.
  destruct (move_pitch_returns fuel note pitch note result) as [Hnear [k0 Hk0]];
    [exists 0; symmetry; apply Pitch_transpose_0 | exact Hrun|].
  assert (Hps : ps result = ps note + 12 * k0)
    by (rewrite Hk0; apply ps_Pitch_transpose).
  destruct (midi_spec result) as (q & r & Hq & Hr & H).
  destruct (midi_spec (Pitch_transpose (12 * k) note)) as (q' & r' & Hq' & Hr' & H').
  rewrite ps_Pitch_transpose in Hq', H'.
  assert (Hsame : r' = r) by lia.
  subst r'. lia.
Qed.

Lemma move_pitch_is_nearest_octave_witness :
  move_pitch 5 (mkPitch 47 91) (mkPitch 22 48) = Ok (mkPitch 19 43)
  /\ Z.abs (midi (mkPitch 19 43) - midi (mkPitch 22 48))
     <= Z.abs (midi (Pitch_transpose (12 * (-3)) (mkPitch 47 91)) - midi (mkPitch 22 48)).
Proof.
  assert (Hrun : move_pitch 5 (mkPitch 47 91) (mkPitch 22 48) = Ok (mkPitch 19 43))
    by reflexivity.
  split; [exact Hrun|].
  apply (move_pitch_is_nearest_octave 5 (mkPitch 47 91) (mkPitch 22 48) (mkPitch 19 43) (-3)
           Hrun).
Defined.

(** ** The voicing and the anchor *)

Lemma comprehension_move_chord_near (anchor : Pitch) (chords moved : list Chord) :
  comprehension (fun c => move_chord c anchor) chords = Ok moved ->
  forall c' : Chord,
    In c' moved ->
    (0 < len c')%nat /\ Z.abs (total_distance c' anchor) <= 12 * Z.of_nat (len c').
Proof.
  revert moved. induction chords as [|c chords IH]; intros moved Hrun c' Hin.
  - cbn in Hrun. injection Hrun as <-. destruct Hin.
  - cbn [comprehension] in Hrun.
    destruct (move_chord c anchor) as [m| |] eqn:Hm; [|discriminate|discriminate]. cbn [bind] in Hrun.
    destruct (comprehension _ chords) as [ms| |] eqn:Hms; [|discriminate|discriminate].
    cbn [bind] in Hrun. injection Hrun as <-.
    destruct Hin as [<- | Hin]; [|apply (IH ms eq_refl c' Hin)].
    destruct (Nat.eq_dec (len c) 0) as [Hz | Hnz].
    + apply len_zero in Hz. subst c. rewrite move_chord_empty in Hm. discriminate.
    + destruct (move_chord_run c anchor) as (n & Hrun & Hl & Hbound); [lia|].
      cbn zeta in *. rewrite Hrun in Hm. injection Hm as <-. rewrite Hl. split; [lia|].
      exact Hbound.
Qed.

(** The voicing returned without a bass note lies around the anchor: the
    signed mean distance of its pitches to the anchor is at most 12
    semitones in absolute value. *)
Theorem voicing_near_anchor (fuel : nat) (self : ChordType.t)
  (root_note anchor_note : PitchInit)
  (max_notes : Z) (include_root : bool) (r a : Pitch) :
  resolve root_note = Ok r ->
  resolve anchor_note = Ok a ->
  2 <= max_notes ->
  exists (best : Chord) (dist : Q),
    generate_closed_chord fuel self root_note anchor_note max_notes None include_root
    = Ok best
    /\ chord_mean_distance best a = Ok dist
    /\ (Qabs dist <= 12)%Q.
Proof.
  intros Hr Ha Hmax.
  destruct (voicing_run self r a max_notes include_root Hmax)
    as (cands & discarded & kept & chord_base & inversions & best & i & mb
        & _ & _ & Hclosed & Hinv & Hbest & _ & _ & _ & Hi & _).
  exists best. eexists.
  split.
  { apply (generate_closed_chord_of_parts fuel self root_note anchor_note max_notes None
             include_root r a None chord_base inversions best); try assumption. reflexivity. }
  unfold normalized_inversions in Hinv.
  destruct (all_inversions chord_base) as [out| |]; [|discriminate|discriminate].
  cbn [bind] in Hinv.
  destruct (comprehension_move_chord_near a out inversions Hinv best (nth_error_In _ _ Hi))
    as [Hpos Hbound].
  split; [apply chord_mean_distance_ok, Hpos|].
  rewrite Qabs_frac. unfold Qle. cbn [Qnum Qden]. rewrite (len_pos best Hpos). lia.
Qed.

Lemma voicing_near_anchor_witness :
  exists (best : Chord) (dist : Q),
    generate_closed_chord 0 (ChordType.add_maj13 DOMINANT_SEVENTH) (Name "G4") (Name "C2") 4
      None false = Ok best
    /\ chord_mean_distance best (mkPitch 15 36) = Ok dist
    /\ (Qabs dist <= 12)%Q.
Proof.
  apply (voicing_near_anchor 0 (ChordType.add_maj13 DOMINANT_SEVENTH) (Name "G4") (Name "C2")
           4 false (mkPitch 33 67) (mkPitch 15 36));
    [reflexivity | reflexivity | lia].
Defined.

(** ** Which tones the trimming keeps *)

Lemma filter_length_perm {A : Type} (f : A -> bool) (l l' : list A) :
  Permutation l l' -> List.length (filter f l) = List.length (filter f l').
Proof.
  induction 1 as [|x l l' _ IH|x y l|l l' l'' _ IH1 _ IH2]; cbn [filter].
  - reflexivity.
  - destruct (f x); cbn [List.length]; rewrite IH; reflexivity.
  - destruct (f x), (f y); reflexivity.
  - rewrite IH1. exact IH2.
Qed.

Lemma filter_all {A : Type} (f : A -> bool) (l : list A) :
  (forall x, In x l -> f x = true) -> filter f l = l.
Proof.
  induction l as [|a l IH]; intros H; [reflexivity|].
  cbn [filter]. rewrite (H a (or_introl eq_refl)). f_equal.
  apply IH. intros x Hx. apply H. right. exact Hx.
Qed.

Lemma filter_weight_pair (f : Z -> bool) (w : Z) (l : list Pitch) :
  filter (fun x : item => f (fst x)) (map (pair w) l)
  = if f w then map (pair w) l else [].
Proof.
  induction l as [|p l IH]; [destruct (f w); reflexivity|].
  cbn [map filter fst]. rewrite IH. destruct (f w); reflexivity.
Qed.

Lemma comprehension_length {A B : Type} (f : A -> Result B) (xs : list A) (ys : list B) :
  comprehension f xs = Ok ys -> List.length ys = List.length xs.
Proof.
  revert ys. induction xs as [|x xs IH]; intros ys H.
  - cbn in H. injection H as <-. reflexivity.
  - cbn [comprehension] in H. destruct (f x); [|discriminate|discriminate]. cbn [bind] in H.
    destruct (comprehension f xs); [|discriminate|discriminate]. cbn [bind] in H.
    injection H as <-. cbn. f_equal. apply IH. reflexivity.
Qed.

(** The tones of the greatest weight are kept when there is room for all of
    them; the tones of the least weights are discarded when at least as many
    tones have to go. *)
Lemma trim_run_keeps_heaviest (max_notes w : Z) (heap discarded kept : list item)
  (x : item) :
  0 <= max_notes ->
  trim_run max_notes heap discarded kept ->
  In x heap ->
  fst x = w ->
  (List.length (filter (fun y : item => (w <=? fst y)%Z) heap) <= List.length kept)%nat ->
  In x kept.
Proof.
  intros Hm Hrun Hx Hw Hcount.
  destruct (trim_run_spec _ _ _ _ Hm Hrun) as (Hperm & _ & Hleast & _).
  apply (Permutation_in _ Hperm), in_app_or in Hx. destruct Hx as [Hd | Hk]; [|exact Hk].
  exfalso.
  rewrite (filter_length_perm _ _ _ Hperm), filter_app, length_app in Hcount.
  rewrite (filter_all _ kept) in Hcount.
  - assert (Hin : In x (filter (fun y : item => w <=? fst y) discarded)).
    { apply filter_In. split; [exact Hd | apply Z.leb_le; lia]. }
    destruct (filter _ discarded); [destruct Hin | cbn in Hcount; lia].
  - intros k Hk. specialize (Hleast x k Hd Hk). apply item_ltb_false in Hleast.
    apply Z.leb_le. lia.
Qed.

Lemma trim_run_drops_lightest (max_notes w : Z) (heap discarded kept : list item)
  (x : item) :
  0 <= max_notes ->
  trim_run max_notes heap discarded kept ->
  fst x = w ->
  (List.length (filter (fun y : item => (fst y <=? w)%Z) heap) <= List.length discarded)%nat ->
  ~ In x kept.
Proof.
  intros Hm Hrun Hw Hcount Hk.
  destruct (trim_run_spec _ _ _ _ Hm Hrun) as (Hperm & _ & Hleast & _).
  rewrite (filter_length_perm _ _ _ Hperm), filter_app, length_app in Hcount.
  rewrite (filter_all _ discarded) in Hcount.
  - assert (Hin : In x (filter (fun y : item => fst y <=? w) kept)).
    { apply filter_In. split; [exact Hk | apply Z.leb_le; lia]. }
    destruct (filter _ kept); [destruct Hin | cbn in Hcount; lia].
  - intros d Hd. specialize (Hleast d x Hd Hk). apply item_ltb_false in Hleast.
    apply Z.leb_le. lia.
Qed.

(** The third and the upper tone carry the greatest weight and are never
    trimmed: both are among the tones the trimming loop keeps.  The fifth
    is discarded as soon as one tone has to go, the root (when it is
    included) as soon as two have to go. *)
Theorem trimming_by_importance (self : ChordType.t) (root_note : Pitch)
  (include_root : bool) (max_notes : Z) :
  2 <= max_notes ->
  exists (third fifth : Pitch) (upper : list Pitch) (cands kept : list item),
    Pitch_transpose_interval (ThirdQuality.interval (ChordType.third_quality self)) root_note
    = Ok third
    /\ Pitch_transpose_interval (FifthQuality.interval (ChordType.fifth_quality self)) root_note
       = Ok fifth
    /\ comprehension (fun q => Pitch_transpose_interval (UpperQuality.interval q) root_note)
         (option_list (ChordType.upper_quality self)) = Ok upper
    /\ candidates self root_note include_root = Ok cands
    /\ trim cands max_notes = Ok kept
    /\ In (9, third) kept
    /\ (forall tone, In tone upper -> In (9, tone) kept)
    /\ (max_notes < Z.of_nat (List.length cands) -> ~ In (1, fifth) kept)
    /\ (max_notes + 1 < Z.of_nat (List.length cands) -> ~ In (3, root_note) kept).
Proof.
  intros Hmax. assert (Hnonneg : 0 <= max_notes) by lia.
  destruct (candidates_spec self root_note include_root)
    as (third & fifth & hs & upper & H3 & H5 & Hh & Hu & Hcands).
  remember ([(9, third)] ++ map (pair 7) hs ++ [(1, fifth)]
            ++ (if include_root then [(3, root_note)] else []) ++ map (pair 9) upper)
    as cands eqn:Ecands.
  change (list (Z * Pitch)) with (list item) in cands.
  destruct (trim_run_exists max_notes cands Hnonneg) as (discarded & kept & Hrun).
  destruct (trim_run_spec _ _ _ _ Hnonneg Hrun) as (Hperm & Hkept & _).
  assert (Hdisc : (List.length discarded + List.length kept = List.length cands)%nat)
    by (pose proof (Permutation_length Hperm) as Hpl; rewrite length_app in Hpl; lia).
  assert (Hup : (List.length upper <= 1)%nat).
  { rewrite (comprehension_length _ _ _ Hu).
    destruct (ChordType.upper_quality self); cbn; lia. }
  assert (Hcount : (2 <= List.length cands)%nat).
  { rewrite Ecands, !length_app. cbn [List.length]. lia. }
  assert (Hheavy : (List.length (filter (fun y : item => (9 <=? fst y)%Z) cands)
                    <= List.length kept)%nat).
  { rewrite Ecands, !filter_app, !length_app.
    rewrite (filter_weight_pair (fun v => 9 <=? v) 7), (filter_weight_pair (fun v => 9 <=? v) 9).
    destruct include_root; cbn; rewrite length_map; lia. }
  exists third, fifth, upper, cands, kept.
  do 4 (split; [assumption|]).
  split; [exact (trim_run_trim _ _ _ _ Hrun)|].
  split; [|split; [|split]].
  - apply (trim_run_keeps_heaviest max_notes 9 cands discarded kept);
      [exact Hnonneg | exact Hrun | rewrite Ecands; left; reflexivity | reflexivity
       | exact Hheavy].
  - intros tone Htone.
    apply (trim_run_keeps_heaviest max_notes 9 cands discarded kept);
      [exact Hnonneg | exact Hrun | | reflexivity | exact Hheavy].
    rewrite Ecands. apply in_or_app. right. apply in_or_app. right. apply in_or_app. right.
    apply in_or_app. right. apply in_map, Htone.
  - intros Hmore.
    apply (trim_run_drops_lightest max_notes 1 cands discarded kept);
      [exact Hnonneg | exact Hrun | reflexivity |].
    rewrite Hkept in Hdisc. rewrite Ecands at 1. rewrite !filter_app, !length_app.
    rewrite (filter_weight_pair (fun v => v <=? 1) 7), (filter_weight_pair (fun v => v <=? 1) 9).
    destruct include_root; cbn; lia.
  - intros Hmore.
    apply (trim_run_drops_lightest max_notes 3 cands discarded kept);
      [exact Hnonneg | exact Hrun | reflexivity |].
    rewrite Hkept in Hdisc. rewrite Ecands at 1. rewrite !filter_app, !length_app.
    rewrite (filter_weight_pair (fun v => v <=? 3) 7), (filter_weight_pair (fun v => v <=? 3) 9).
    destruct include_root; cbn; lia.
Qed.

Lemma trimming_by_importance_witness :
  exists (third fifth : Pitch) (upper : list Pitch) (cands kept : list item),
    Pitch_transpose_interval "M3" (mkPitch 29 60) = Ok third
    /\ Pitch_transpose_interval "P5" (mkPitch 29 60) = Ok fifth
    /\ comprehension (fun q => Pitch_transpose_interval (UpperQuality.interval q) (mkPitch 29 60))
         [UpperQuality.MAJOR_SEVENTH] = Ok upper
    /\ candidates (ChordType.add_maj9 MAJOR_SEVENTH) (mkPitch 29 60) true = Ok cands
    /\ trim cands 3 = Ok kept
    /\ In (9, third) kept
    /\ (forall tone, In tone upper -> In (9, tone) kept)
    /\ (3 < Z.of_nat (List.length cands) -> ~ In (1, fifth) kept)
    /\ (3 + 1 < Z.of_nat (List.length cands) -> ~ In (3, mkPitch 29 60) kept).
Proof.
  apply (trimming_by_importance (ChordType.add_maj9 MAJOR_SEVENTH) (mkPitch 29 60) true 3).
  lia.
Defined.

(** ** The order of the harmonies does not matter *)

Lemma diatonic_leb_spec (p q : Pitch) :
  diatonic_leb p q = true
  <-> diatonicNoteNum p < diatonicNoteNum q
      \/ (diatonicNoteNum p = diatonicNoteNum q /\ ps p <= ps q).
Proof.
  unfold diatonic_leb. rewrite orb_true_iff, andb_true_iff, Z.ltb_lt, Z.eqb_eq, Z.leb_le.
  reflexivity.
Qed.

Lemma diatonic_leb_total (p q : Pitch) :
  diatonic_leb p q = false -> diatonic_leb q p = true.
Proof.
  rewrite <- not_true_iff_false, !diatonic_leb_spec. lia.
Qed.

Lemma diatonic_leb_trans (p q r : Pitch) :
  diatonic_leb p q = true -> diatonic_leb q r = true -> diatonic_leb p r = true.
Proof. rewrite !diatonic_leb_spec. lia. Qed.

Lemma diatonic_leb_antisym (p q : Pitch) :
  diatonic_leb p q = true -> diatonic_leb q p = true -> p = q.
Proof.
  rewrite !diatonic_leb_spec. destruct p as [d m], q as [d' m']. cbn.
  intros H1 H2. f_equal; lia.
Qed.

Lemma insert_sorted_sorted (p : Pitch) (l : list Pitch) :
  StronglySorted (fun a b => diatonic_leb a b = true) l ->
  StronglySorted (fun a b => diatonic_leb a b = true) (insert_sorted p l).
Proof.
  induction 1 as [|q l Hsorted IH Hq]; [repeat constructor|].
  cbn [insert_sorted]. destruct (diatonic_leb p q) eqn:E.
  - constructor; [constructor; assumption|].
    constructor; [exact E|]. rewrite Forall_forall in *. intros x Hx.
    apply (diatonic_leb_trans p q x E), Hq, Hx.
  - constructor; [exact IH|]. rewrite Forall_forall in *. intros x Hx.
    apply (Permutation_in _ (insert_sorted_perm p l)) in Hx.
    destruct Hx as [<- | Hx]; [apply diatonic_leb_total, E | apply Hq, Hx].
Qed.

Lemma sortDiatonicAscending_sorted (chord : Chord) :
  StronglySorted (fun a b => diatonic_leb a b = true) (sortDiatonicAscending chord).
Proof.
  induction chord as [|p chord IH]; [constructor|].
  cbn [sortDiatonicAscending fold_right]. apply insert_sorted_sorted, IH.
Qed.

Lemma sorted_perm_eq (l l' : list Pitch) :
  StronglySorted (fun a b => diatonic_leb a b = true) l ->
  StronglySorted (fun a b => diatonic_leb a b = true) l' ->
  Permutation l l' ->
  l = l'.
Proof.
  intros Hl. revert l'. induction Hl as [|a l Hsorted IH Ha]; intros l' Hl' Hperm.
  - apply Permutation_nil in Hperm. subst. reflexivity.
  - destruct Hl' as [|b l' Hsorted' Hb].
    + apply Permutation_sym, Permutation_nil in Hperm. discriminate.
    + assert (Hab : a = b).
      { rewrite Forall_forall in Ha, Hb.
        assert (Hin_b : In b (a :: l))
          by (apply (Permutation_in _ (Permutation_sym Hperm)); left; reflexivity).
        assert (Hin_a : In a (b :: l'))
          by (apply (Permutation_in _ Hperm); left; reflexivity).
        destruct Hin_b as [Heq | Hin_b]; [exact Heq|].
        destruct Hin_a as [Heq | Hin_a]; [symmetry; exact Heq|].
        apply diatonic_leb_antisym; [apply Ha, Hin_b | apply Hb, Hin_a]. }
      subst b. f_equal. apply IH; [exact Hsorted'|].
      apply (Permutation_cons_inv Hperm).
Qed.

(** Sorting forgets the order the pitches came in. *)
Lemma sortDiatonicAscending_of_perm (chord chord' : Chord) :
  Permutation chord chord' ->
  sortDiatonicAscending chord = sortDiatonicAscending chord'.
Proof.
  intros Hperm. apply sorted_perm_eq; try apply sortDiatonicAscending_sorted.
  rewrite !sortDiatonicAscending_perm. exact Hperm.
Qed.

Lemma key_eq_of_incomparable (x y : item) :
  item_ltb x y = false -> item_ltb y x = false -> key x = key y.
Proof.
  rewrite !item_ltb_false. unfold key. intros H1 H2. f_equal; lia.
Qed.

Lemma NoDup_map_injective {A B : Type} (f : A -> B) (l : list A) (x y : A) :
  NoDup (map f l) -> In x l -> In y l -> f x = f y -> x = y.
Proof.
  induction l as [|a l IH]; intros Hnd Hx Hy Hxy; [destruct Hx|].
  cbn [map] in Hnd. inversion Hnd as [|? ? Hnotin Hnd']; subst.
  destruct Hx as [<- | Hx], Hy as [<- | Hy].
  - reflexivity.
  - exfalso. apply Hnotin. rewrite Hxy. apply in_map, Hy.
  - exfalso. apply Hnotin. rewrite <- Hxy. apply in_map, Hx.
  - apply IH; assumption.
Qed.

Lemma filter_length_lt {A : Type} (f : A -> bool) (l : list A) (x : A) :
  In x l -> f x = false -> (List.length (filter f l) < List.length l)%nat.
Proof.
  induction l as [|a l IH]; intros Hin Hx; [destruct Hin|].
  pose proof (filter_length_le f l) as Hle.
  cbn [filter]. destruct Hin as [-> | Hin].
  - rewrite Hx. cbn [List.length]. lia.
  - specialize (IH Hin Hx). destruct (f a); cbn [List.length]; lia.
Qed.

Lemma filter_none {A : Type} (f : A -> bool) (l : list A) :
  (forall x, In x l -> f x = false) -> filter f l = [].
Proof.
  induction l as [|a l IH]; intros H; [reflexivity|].
  cbn [filter]. rewrite (H a (or_introl eq_refl)). apply IH.
  intros x Hx. apply H. right. exact Hx.
Qed.

(** On heaps with the same items, no two of them with one key, what the
    trimming keeps does not depend on how the heap is arranged. *)
Lemma kept_incl (max_notes : Z) (heap heap' d k d' k' : list item) :
  0 <= max_notes ->
  Permutation heap heap' ->
  NoDup (map key heap) ->
  trim_run max_notes heap d k ->
  trim_run max_notes heap' d' k' ->
  forall x, In x k -> In x k'.
Proof.
  intros Hm Hheaps Hkeys Hrun Hrun' x Hx.
  destruct (trim_run_spec _ _ _ _ Hm Hrun) as (Hperm & Hlen & Hleast & _).
  destruct (trim_run_spec _ _ _ _ Hm Hrun') as (Hperm' & Hlen' & Hleast' & _).
  assert (Hsame : List.length k' = List.length k)
    by (rewrite Hlen, Hlen', (Permutation_length Hheaps); reflexivity).
  assert (Hin_heap : In x heap)
    by (apply (Permutation_in _ (Permutation_sym Hperm)), in_or_app; right; exact Hx).
  assert (Hx' : In x (d' ++ k'))
    by (apply (Permutation_in _ Hperm'), (Permutation_in _ Hheaps), Hin_heap).
  apply in_app_or in Hx'. destruct Hx' as [Hd' | Hk']; [|exact Hk'].
  exfalso.
  assert (Hnd' : NoDup (d' ++ k')).
  { apply (Permutation_NoDup Hperm'), (Permutation_NoDup Hheaps).
    apply (NoDup_map_inv key), Hkeys. }
  set (above := fun y : item => item_ltb x y).
  assert (Hall : filter above k' = k').
  { apply filter_all. intros y Hy. unfold above.
    destruct (item_ltb x y) eqn:E; [reflexivity|]. exfalso.
    assert (Heq : x = y).
    { apply (NoDup_map_injective key heap); [exact Hkeys | exact Hin_heap | |].
      - apply (Permutation_in _ (Permutation_sym Hheaps)),
          (Permutation_in _ (Permutation_sym Hperm')), in_or_app. right. exact Hy.
      - apply key_eq_of_incomparable; [exact E | apply Hleast'; assumption]. }
    subst y. revert Hnd' Hd' Hy. clear. intros Hnd Hd Hk.
    induction d' as [|a d' IH]; [destruct Hd|].
    cbn [app] in Hnd. inversion Hnd as [|? ? Hnotin Hnd']; subst.
    destruct Hd as [-> | Hd]; [apply Hnotin, in_or_app; right; exact Hk|].
    apply IH; assumption. }
  assert (Hnone : filter above d = []).
  { apply filter_none. intros y Hy. apply Hleast; assumption. }
  assert (Hless : (List.length (filter above k) < List.length k)%nat).
  { apply (filter_length_lt above k x Hx). unfold above. apply item_ltb_false. lia. }
  pose proof (filter_length_perm above _ _ Hperm) as H1.
  pose proof (filter_length_perm above _ _ Hperm') as H2.
  pose proof (filter_length_perm above _ _ Hheaps) as H3.
  rewrite filter_app, length_app, Hnone in H1.
  rewrite filter_app, length_app, Hall in H2.
  cbn [List.length] in H1. lia.
Qed.

Lemma kept_unique (max_notes : Z) (heap heap' d k d' k' : list item) :
  0 <= max_notes ->
  Permutation heap heap' ->
  NoDup (map key heap) ->
  trim_run max_notes heap d k ->
  trim_run max_notes heap' d' k' ->
  Permutation k k'.
Proof.
  intros Hm Hheaps Hkeys Hrun Hrun'.
  destruct (trim_run_spec _ _ _ _ Hm Hrun) as (Hperm & _).
  destruct (trim_run_spec _ _ _ _ Hm Hrun') as (Hperm' & _).
  assert (Hnd : NoDup heap) by apply (NoDup_map_inv key), Hkeys.
  assert (Hkeys' : NoDup (map key heap'))
    by apply (Permutation_NoDup (Permutation_map key Hheaps)), Hkeys.
  apply NoDup_Permutation.
  - apply (Permutation_NoDup Hperm) in Hnd. apply NoDup_app_remove_l in Hnd. exact Hnd.
  - apply (Permutation_NoDup Hheaps), (Permutation_NoDup Hperm') in Hnd.
    apply NoDup_app_remove_l in Hnd. exact Hnd.
  - intros x. split.
    + apply (kept_incl max_notes heap heap' d k d' k'); assumption.
    + apply (kept_incl max_notes heap' heap d' k' d k);
        [exact Hm | apply Permutation_sym, Hheaps | exact Hkeys' | exact Hrun' | exact Hrun].
Qed.

Lemma third_semitones (q : ThirdQuality.t) (r p : Pitch) :
  Pitch_transpose_interval (ThirdQuality.interval q) r = Ok p ->
  2 <= ps p - ps r <= 5.
Proof. destruct q; cbn; intros H; injection H as <-; cbn; lia. Qed.

Lemma upper_semitones (q : UpperQuality.t) (r p : Pitch) :
  Pitch_transpose_interval (UpperQuality.interval q) r = Ok p ->
  8 <= ps p - ps r <= 11.
Proof. destruct q; cbn; intros H; injection H as <-; cbn; lia. Qed.

Lemma harmony_midi_injective (h h' : Harmony.t) (r p p' : Pitch) :
  Pitch_transpose_interval (Harmony.interval h) r = Ok p ->
  Pitch_transpose_interval (Harmony.interval h') r = Ok p' ->
  ps p = ps p' ->
  h = h'.
Proof.
  destruct h, h'; cbn; intros H H'; injection H as <-; injection H' as <-; cbn;
    intros Hm; try reflexivity; exfalso; lia.
Qed.

Lemma comprehension_In {A B : Type} (f : A -> Result B) (xs : list A) (ys : list B) (y : B) :
  comprehension f xs = Ok ys -> In y ys -> exists x, In x xs /\ f x = Ok y.
Proof.
  revert ys. induction xs as [|x xs IH]; intros ys H Hy.
  - cbn in H. injection H as <-. destruct Hy.
  - cbn [comprehension] in H. destruct (f x) as [b| |] eqn:Hb; [|discriminate|discriminate].
    cbn [bind] in H. destruct (comprehension f xs) as [bs| |]; [|discriminate|discriminate].
    cbn [bind] in H. injection H as <-. destruct Hy as [<- | Hy].
    + exists x. split; [left; reflexivity | exact Hb].
    + destruct (IH bs eq_refl Hy) as (x' & Hx' & Hf). exists x'. split; [right|]; assumption.
Qed.

Lemma harmony_tones_distinct (hs : list Harmony.t) (r : Pitch) (tones : list Pitch) :
  NoDup hs ->
  comprehension (fun harm => Pitch_transpose_interval (Harmony.interval harm) r) hs
  = Ok tones ->
  NoDup (map ps tones).
Proof.
  revert tones. induction hs as [|h hs IH]; intros tones Hnd H.
  - cbn in H. injection H as <-. constructor.
  - cbn [comprehension] in H.
    destruct (Pitch_transpose_interval (Harmony.interval h) r) as [p| |] eqn:Hp;
      [|discriminate|discriminate].
    cbn [bind] in H. destruct (comprehension _ hs) as [tones'| |] eqn:Hps; [|discriminate|discriminate].
    cbn [bind] in H. injection H as <-.
    inversion Hnd as [|? ? Hnotin Hnd']; subst. cbn [map]. constructor.
    + intros Hin. apply in_map_iff in Hin as (p' & Hm & Hin).
      destruct (comprehension_In _ _ _ _ Hps Hin) as (h' & Hh' & Hf).
      apply Hnotin. rewrite (harmony_midi_injective h h' r p p' Hp Hf (eq_sym Hm)).
      exact Hh'.
    + apply (IH tones' Hnd' eq_refl).
Qed.

Lemma comprehension_perm {A B : Type} (f : A -> Result B) (xs xs' : list A) :
  Permutation xs xs' ->
  forall ys, comprehension f xs = Ok ys ->
  exists ys', comprehension f xs' = Ok ys' /\ Permutation ys ys'.
Proof.
  induction 1 as [|x l l' _ IH|x y l|l l' l'' _ IH1 _ IH2]; intros ys H.
  - exists ys. split; [exact H | reflexivity].
  - cbn [comprehension] in H |- *. destruct (f x) as [b| |]; [|discriminate|discriminate].
    cbn [bind] in H |- *. destruct (comprehension f l) as [bs| |]; [|discriminate|discriminate].
    cbn [bind] in H. injection H as <-.
    destruct (IH bs eq_refl) as (bs' & -> & Hperm). cbn [bind].
    exists (b :: bs'). split; [reflexivity | apply perm_skip, Hperm].
  - cbn [comprehension] in H |- *.
    destruct (f y) as [b| |]; [|discriminate|discriminate]. cbn [bind] in H.
    destruct (f x) as [c| |]; [|discriminate|discriminate]. cbn [bind] in H |- *.
    destruct (comprehension f l) as [bs| |]; [|discriminate|discriminate]. cbn [bind] in H |- *.
    injection H as <-. exists (c :: b :: bs). split; [reflexivity | apply perm_swap].
  - destruct (IH1 ys H) as (ys' & H' & Hp1).
    destruct (IH2 ys' H') as (ys'' & H'' & Hp2).
    exists ys''. split; [exact H'' | apply (Permutation_trans Hp1 Hp2)].
Qed.

Lemma NoDup_by_weight (kt kf : Z * Z) (B D E : list (Z * Z)) :
  NoDup B -> NoDup D -> NoDup E ->
  fst kt = 9 -> fst kf = 1 ->
  (forall x, In x B -> fst x = 7) ->
  (forall x, In x D -> fst x = 3) ->
  (forall x, In x E -> fst x = 9 /\ x <> kt) ->
  NoDup (kt :: B ++ kf :: D ++ E).
Proof.
  intros HB HD HE Hkt Hkf HwB HwD HwE.
  constructor.
  - intros Hin. apply in_app_or in Hin as [Hin | [<- | Hin]].
    + apply HwB in Hin. lia.
    + lia.
    + apply in_app_or in Hin as [Hin | Hin].
      * apply HwD in Hin. lia.
      * apply HwE in Hin as [_ Hne]. apply Hne. reflexivity.
  - apply NoDup_app; [exact HB | |].
    + constructor.
      * intros Hin. apply in_app_or in Hin as [Hin | Hin].
        -- apply HwD in Hin. lia.
        -- apply HwE in Hin as [Hw _]. lia.
      * apply NoDup_app; [exact HD | exact HE |].
        intros x Hx Hin. apply HwD in Hx. apply HwE in Hin as [Hw _]. lia.
    + intros x Hx Hin. apply HwB in Hx. destruct Hin as [<- | Hin]; [lia|].
      apply in_app_or in Hin as [Hin | Hin].
      * apply HwD in Hin. lia.
      * apply HwE in Hin as [Hw _]. lia.
Qed.

(** The candidate tones of a chord type without repeated harmonies have
    pairwise different keys. *)
Lemma candidates_keys_distinct (self : ChordType.t) (r : Pitch) (include_root : bool)
  (cands : list item) :
  NoDup (ChordType.harmonies self) ->
  candidates self r include_root = Ok cands ->
  NoDup (map key cands).
Proof.
  intros Hnd Hc.
  destruct (candidates_spec self r include_root)
    as (third & fifth & hs & upper & H3 & H5 & Hh & Hu & Hcands).
  rewrite Hcands in Hc.
  assert (Hc' : cands = [(9, third)] ++ map (pair 7) hs ++ [(1, fifth)]
                       ++ (if include_root then [(3, r)] else [])
                       ++ map (pair 9) upper) by congruence.
  clear Hc Hcands.
  assert (Hup : forall p, In p upper -> 8 <= ps p - ps r <= 11).
  { intros p Hp. destruct (comprehension_In _ _ _ _ Hu Hp) as (q & _ & Hq).
    apply (upper_semitones q r p Hq). }
  assert (Hup1 : (List.length upper <= 1)%nat).
  { rewrite (comprehension_length _ _ _ Hu).
    destruct (ChordType.upper_quality self); cbn; lia. }
  pose proof (third_semitones _ r third H3) as Hthird.
  pose proof (harmony_tones_distinct _ r hs Hnd Hh) as Hhs.
  assert (Hshape : map key cands
                   = key (9, third)
                     :: map (fun p => key (7, p)) hs
                     ++ key (1, fifth)
                     :: map key (if include_root then [(3, r)] else [])
                     ++ map (fun p => key (9, p)) upper).
  { rewrite Hc'. cbn [app map]. rewrite !map_app, !map_map. cbn [app map].
    rewrite !map_app, !map_map. reflexivity. }
  rewrite Hshape. apply NoDup_by_weight.
  - clear -Hhs. induction hs as [|p hs IH]; [constructor|].
    cbn [map] in *. inversion Hhs as [|? ? Hnotin Hnd]; subst. constructor.
    + intros Hin. apply in_map_iff in Hin as (p' & Hk & Hp').
      apply Hnotin. unfold key in Hk. cbn in Hk. injection Hk as Hk. rewrite <- Hk.
      apply in_map, Hp'.
    + apply IH, Hnd.
  - destruct include_root; repeat constructor. intros [].
  - destruct upper as [|p [|p' upper]]; [constructor | | cbn in Hup1; lia].
    repeat constructor. intros [].
  - reflexivity.
  - reflexivity.
  - intros x Hx. apply in_map_iff in Hx as (p & <- & _). reflexivity.
  - intros x Hx. destruct include_root; [destruct Hx as [<- | []]; reflexivity | destruct Hx].
  - intros x Hx. apply in_map_iff in Hx as (p & <- & Hp). split; [reflexivity|].
    specialize (Hup p Hp). unfold key. cbn. intros Heq. injection Heq as Heq. lia.
Qed.

(** Two chord types that differ only in the order of their harmonies have
    the same closed chord: the trimming loop keeps the same tones, and
    sorting puts them in the same order. *)
Lemma closed_chord_perm (self self' : ChordType.t) (r a : Pitch) (max_notes : Z)
  (include_root : bool) :
  0 <= max_notes ->
  ChordType.third_quality self = ChordType.third_quality self' ->
  ChordType.fifth_quality self = ChordType.fifth_quality self' ->
  ChordType.upper_quality self = ChordType.upper_quality self' ->
  NoDup (ChordType.harmonies self) ->
  Permutation (ChordType.harmonies self) (ChordType.harmonies self') ->
  closed_chord self r a max_notes include_root
  = closed_chord self' r a max_notes include_root.
Proof.
  intros Hm Ht Hf Hu Hnd Hperm.
  destruct (candidates_spec self r include_root)
    as (third & fifth & hs & upper & H3 & H5 & Hh & Hup & Hcands).
  destruct (candidates_spec self' r include_root)
    as (third' & fifth' & hs' & upper' & H3' & H5' & Hh' & Hup' & Hcands').
  rewrite <- Ht in H3'. rewrite <- Hf in H5'. rewrite <- Hu in Hup'.
  assert (third' = third) by congruence.
  assert (fifth' = fifth) by congruence.
  assert (upper' = upper) by congruence.
  subst third' fifth' upper'.
  destruct (comprehension_perm _ _ _ Hperm hs Hh) as (hs'' & Hh'' & Hhs).
  assert (hs'' = hs') by congruence. subst hs''.
  pose proof (candidates_keys_distinct self r include_root _ Hnd Hcands) as Hkeys.
  remember ([(9, third)] ++ map (pair 7) hs ++ [(1, fifth)]
            ++ (if include_root then [(3, r)] else []) ++ map (pair 9) upper)
    as heap eqn:Hheap.
  remember ([(9, third)] ++ map (pair 7) hs' ++ [(1, fifth)]
            ++ (if include_root then [(3, r)] else []) ++ map (pair 9) upper)
    as heap' eqn:Hheap'.
  assert (Hheaps : Permutation heap heap').
  { subst heap heap'. apply Permutation_app_head, Permutation_app_tail, Permutation_map, Hhs. }
  destruct (trim_run_exists max_notes heap Hm) as (d & k & Hrun).
  destruct (trim_run_exists max_notes heap' Hm) as (d' & k' & Hrun').
  pose proof (kept_unique _ _ _ _ _ _ _ Hm Hheaps Hkeys Hrun Hrun') as Hkept.
  unfold closed_chord. rewrite Hcands, Hcands'. cbn [bind].
  rewrite (trim_run_trim _ _ _ _ Hrun), (trim_run_trim _ _ _ _ Hrun'). cbn [bind].
  rewrite (sortDiatonicAscending_of_perm (map snd k) (map snd k'));
    [reflexivity | apply Permutation_map, Hkept].
Qed.

(** The chord [generate_closed_chord] returns depends on the set of
    harmonies of the chord type only: two chord types built with the same
    qualities from lists holding the same harmonies (in any order, with any
    repetitions) give the same result for the same arguments, be it a chord
    an exception, or a call that does not return.  Whatever order the
    [frozenset] of line 178 is iterated in at line 263, the voicing is the
    same. *)
Theorem harmonies_order_irrelevant (fuel : nat) (third_qual : ThirdQuality.t)
  (fifth_qual : FifthQuality.t) (upper_qual : option UpperQuality.t)
  (hs hs' : list Harmony.t) (root_note anchor_note : PitchInit) (max_notes : Z)
  (bass_note : option PitchInit) (include_root : bool) :
  (forall h : Harmony.t, In h hs <-> In h hs') ->
  generate_closed_chord fuel (ChordType.init third_qual fifth_qual upper_qual hs)
    root_note anchor_note max_notes bass_note include_root
  = generate_closed_chord fuel (ChordType.init third_qual fifth_qual upper_qual hs')
      root_note anchor_note max_notes bass_note include_root.
Proof.
  intros Hsame. unfold generate_closed_chord.
  destruct (resolve root_note) as [r|e|]; [|reflexivity|reflexivity]. cbn [bind].
  destruct (resolve anchor_note) as [a|e|]; [|reflexivity|reflexivity]. cbn [bind].
  destruct (resolve_optional bass_note) as [b|e|]; [|reflexivity|reflexivity]. cbn [bind].
  destruct (max_notes <? 2) eqn:Hsize; [reflexivity|].
  apply Z.ltb_ge in Hsize.
  rewrite (closed_chord_perm (ChordType.init third_qual fifth_qual upper_qual hs)
             (ChordType.init third_qual fifth_qual upper_qual hs') r a max_notes include_root);
    try reflexivity.
  - lia.
  - apply NoDup_nodup.
  - cbn [ChordType.init ChordType.harmonies]. unfold ChordType.frozenset.
    apply NoDup_Permutation; try apply NoDup_nodup.
    intros h. rewrite !nodup_In. apply Hsame.
Qed.

Lemma harmonies_order_irrelevant_witness :
  (forall h : Harmony.t,
      In h [Harmony.MAJOR_NINTH; Harmony.ELEVENTH]
      <-> In h [Harmony.ELEVENTH; Harmony.MAJOR_NINTH; Harmony.ELEVENTH])
  /\ generate_closed_chord 0
       (ChordType.init ThirdQuality.MAJOR FifthQuality.PERFECT
          (Some UpperQuality.DOMINANT_SEVENTH) [Harmony.MAJOR_NINTH; Harmony.ELEVENTH])
       (Name "C4") (Name "E4") 4 None true
     = generate_closed_chord 0
         (ChordType.init ThirdQuality.MAJOR FifthQuality.PERFECT
            (Some UpperQuality.DOMINANT_SEVENTH)
            [Harmony.ELEVENTH; Harmony.MAJOR_NINTH; Harmony.ELEVENTH])
         (Name "C4") (Name "E4") 4 None true.
Proof.
  assert (Hsame : forall h : Harmony.t,
             In h [Harmony.MAJOR_NINTH; Harmony.ELEVENTH]
             <-> In h [Harmony.ELEVENTH; Harmony.MAJOR_NINTH; Harmony.ELEVENTH])
    by (intros h; cbn; tauto).
  split; [exact Hsame|].
  apply (harmonies_order_irrelevant 0 ThirdQuality.MAJOR FifthQuality.PERFECT
           (Some UpperQuality.DOMINANT_SEVENTH) _ _ (Name "C4") (Name "E4") 4 None true Hsame).
Defined.
